(** * hopsworks-apigen: a shallow embedding of the API management utilities

    The development follows the layout of the Python package:
    - [Errors]      : [errors.py]      (exceptions, deprecation message)
    - [Aliases]     : [aliases.py]     ([public], [also_available_as])
    - [Deprecation] : [deprecation.py] ([deprecated] and its wrapper)
    - [Setuptools]  : [setuptools.py]  (alias synthesis and materialisation)
    - [Mkdocs]      : [mkdocs.py]      (navigation merge)

    Python [str] values are modelled as [string] (sequences of 8-bit
    characters); on that range the regular-expression class [\d] is
    exactly ['0'..'9'].  Raised exceptions are values of [exn], and a
    function that may raise returns a [result]. *)

From stdpp Require Import gmap strings list sorting.

(** ** Exceptions and results

    [RecursionError] is what a function whose recursion is bounded by a
    [fuel] argument returns when the bound is reached. *)

Inductive exn : Type :=
| HopsworksApigenError (msg : string)
| TypeError (msg : string)
| ValueError (msg : string)
| AttributeError (msg : string)
| RecursionError
| StopIteration
| OSError (msg : string).

Inductive result (A : Type) : Type :=
| Ok (a : A)
| Raise (e : exn).

Arguments Ok {A} a.
Arguments Raise {A} e.

(** The configuration errors are the [HopsworksApigenError]s. *)
Definition is_config_error (e : exn) : bool :=
  match e with
  | HopsworksApigenError _ => true
  | _ => false
  end.

(** [raises_config r]: [r] is a raised [HopsworksApigenError]. *)
Definition raises_config {A : Type} (r : result A) : Prop :=
  ∃ msg, r = Raise (HopsworksApigenError msg).

(** ** Insertion-ordered dictionaries

    A Python [dict] whose iteration order matters: assigning to an
    existing key keeps its position, a new key goes last. *)

Section dict.
Context {K V : Type} `{EqDecision K}.

Fixpoint dict_get (k : K) (d : list (K * V)) : option V :=
  match d with
  | [] => None
  | (k', v) :: rest => if decide (k = k') then Some v else dict_get k rest
  end.

Fixpoint dict_set (k : K) (v : V) (d : list (K * V)) : list (K * V) :=
  match d with
  | [] => [(k, v)]
  | (k', v') :: rest =>
      if decide (k = k') then (k, v) :: rest else (k', v') :: dict_set k v rest
  end.
End dict.

(** ** Stable sorting ([list.sort] and [sorted] are stable) *)

Section sorting.
Context {A : Type} (leb : A → A → bool).

Fixpoint insert_sorted (x : A) (l : list A) : list A :=
  match l with
  | [] => [x]
  | y :: rest => if leb x y then x :: l else y :: insert_sorted x rest
  end.

Definition stable_sort (l : list A) : list A := foldr insert_sorted [] l.
End sorting.

(** ** Strings *)

(** [str_contains needle hay]: Python's [needle in hay]. *)
Fixpoint str_contains (needle hay : string) : bool :=
  String.prefix needle hay ||
  match hay with
  | EmptyString => false
  | String _ rest => str_contains needle rest
  end.

(** A message names [s] when [s] occurs in it. *)
Definition names (msg s : string) : Prop := str_contains s msg = true.

(** [sep.join(l)] *)
Definition join (sep : string) (l : list string) : string := String.concat sep l.

Module Errors.

(** *** The pattern [^\d+\.\d+$] under [re.match] *)

Definition is_digit (c : Ascii.ascii) : bool :=
  (48 <=? Ascii.nat_of_ascii c)%nat && (Ascii.nat_of_ascii c <=? 57)%nat.

Fixpoint skip_digits (s : string) : string :=
  match s with
  | String c rest => if is_digit c then skip_digits rest else s
  | EmptyString => s
  end.

(** [\d+]: at least one digit, greedily; returns the rest. *)
Definition digits1 (s : string) : option string :=
  match s with
  | String c rest => if is_digit c then Some (skip_digits rest) else None
  | EmptyString => None
  end.

(** [$] without [re.MULTILINE] matches at the end of the string and just
    before a newline that ends the string. *)
Definition at_dollar (s : string) : bool :=
  match s with
  | EmptyString => true
  | String c EmptyString => Nat.eqb (Ascii.nat_of_ascii c) 10
  | _ => false
  end.

(** [re.match(r"^\d+\.\d+$", s)] as a truth value. *)
Definition re_match_major_minor (s : string) : bool :=
  match digits1 s with
  | Some (String c rest) =>
      if Nat.eqb (Ascii.nat_of_ascii c) 46 then
        match digits1 rest with
        | Some tail => at_dollar tail
        | None => false
        end
      else false
  | _ => false
  end.

(** Truth value of an [str | None] argument: [None] and [""] are falsy. *)
Definition truthy (o : option string) : bool :=
  match o with
  | Some (String _ _) => true
  | _ => false
  end.

Definition version_error : string :=
  "The available_until parameter must be in the format 'major.minor', e.g., '4.0'.".

Definition recommendation_error : string :=
  "At least one recommendation must be provided for deprecation warnings.".

(** The [recs] text, by [len(deprecated_by)]; [deprecated_by[:-1]] and
    [deprecated_by[-1]] are [removelast] and [List.last]. *)
Definition recs_text (deprecated_by : list string) : string :=
  if Nat.eqb (length deprecated_by) 1 then List.hd "" deprecated_by
  else if Nat.eqb (length deprecated_by) 2
  then List.nth 0 deprecated_by "" +:+ " or " +:+ List.nth 1 deprecated_by ""
  else join ", " (removelast deprecated_by) +:+ ", or " +:+ List.last deprecated_by "".

Definition generate_deprecation_message
    (name : string) (deprecated_by : list string)
    (available_until : option string) : result string :=
  if truthy available_until
     && negb (re_match_major_minor (default "" available_until))
  then Raise (HopsworksApigenError version_error)
  else
    let v := if truthy available_until
             then "version " +:+ default "" available_until
             else "a future release" in
    if Nat.eqb (length deprecated_by) 0
    then Raise (HopsworksApigenError recommendation_error)
    else
      let recs := recs_text deprecated_by in
      Ok (name +:+ " is deprecated."
          +:+ " The function will be removed in " +:+ v +:+ " of hopsworks."
          +:+ " Consider using " +:+ recs +:+ " instead.").

End Errors.

Module Aliases.

(** Python values that reach the decorators: strings, objects (functions,
    classes, instances) by identity, and other constants. *)
Inductive pyval : Type :=
| PyStr (s : string)
| PyObj (id : nat)
| PyInt (n : Z)
| PyNone.

#[global] Instance pyval_eq_dec : EqDecision pyval.
Proof. solve_decision. Defined.

Definition isinstance_str (v : pyval) : bool :=
  match v with
  | PyStr _ => true
  | _ => false
  end.

(** [PublicNames.nameOf] *)
Definition name_registry : Type := list (pyval * string).

(** What [public(...)] returns: the symbol itself (bare form) or the
    closure [publicate], which captures [paths]. *)
Inductive public_return : Type :=
| ReturnSymbol (symbol : pyval)
| ReturnPublicate (paths : list pyval).

Definition public (paths : list pyval) (order : Z) : public_return :=
  if Nat.eqb (length paths) 1 && negb (isinstance_str (List.nth 0 paths PyNone))
  then ReturnSymbol (List.nth 0 paths PyNone)
  else ReturnPublicate paths.

Definition primary_path_error : string :=
  "The primary public path must be a string representing an import path.".

Definition publicate (paths : list pyval) (symbol : pyval)
    (nameOf : name_registry) : result pyval * name_registry :=
  let name := match paths with
              | [] => PyStr ""
              | p :: _ => p
              end in
  match name with
  | PyStr s => (Ok symbol, dict_set symbol s nameOf)
  | _ => (Raise (TypeError primary_path_error), nameOf)
  end.

(** [also_available_as] returns [lambda symbol: symbol]. *)
Definition also_available_as (paths : list string) (symbol : pyval) : pyval := symbol.

End Aliases.

Module Deprecation.
Import Aliases Errors.

(** *** Objects *)

(** An entry of a class namespace ([__dict__]). *)
Inductive attr : Type :=
| AttrObj (id : nat)
| AttrStaticMethod (f : nat)
| AttrClassMethod (f : nat)
| AttrData (v : pyval).

(** Heap objects.  [DeprecatedF] is the closure [deprecated_f]: it captures
    [symbol] and [message], and [functools.wraps] copies [__qualname__]. *)
Inductive obj : Type :=
| PlainFunction (qualname : string)
| DeprecatedF (symbol : nat) (message : string) (qualname : string)
| Class (qualname : string) (mro_tail : list nat) (namespace : gmap string attr)
| Other (can_hash : bool) (qualname : option string).

(** The heap: object identity is the index. *)
Abbreviation heap := (list obj).

Definition isclass (h : heap) (v : nat) : bool :=
  match h !! v with
  | Some (Class _ _ _) => true
  | _ => false
  end.

Definition isfunction (h : heap) (v : nat) : bool :=
  match h !! v with
  | Some (PlainFunction _) | Some (DeprecatedF _ _ _) => true
  | _ => false
  end.

Definition qualname_of (h : heap) (v : nat) : option string :=
  match h !! v with
  | Some (PlainFunction q) | Some (DeprecatedF _ _ q) | Some (Class q _ _) => Some q
  | Some (Other _ q) => q
  | None => None
  end.

Definition namespace_of (h : heap) (c : nat) : gmap string attr :=
  match h !! c with
  | Some (Class _ _ ns) => ns
  | _ => ∅
  end.

Definition mro (h : heap) (c : nat) : list nat :=
  match h !! c with
  | Some (Class _ tail _) => c :: tail
  | _ => [c]
  end.

(** The result of [getattr(cls, name)]. *)
Inductive attr_value : Type :=
| GotObj (id : nat)
| GotBoundMethod (f : nat) (cls : nat)
| GotData (v : pyval).

Fixpoint find_attr (h : heap) (classes : list nat) (n : string) : option attr :=
  match classes with
  | [] => None
  | k :: rest =>
      match namespace_of h k !! n with
      | Some a => Some a
      | None => find_attr h rest n
      end
  end.

Definition getattr (h : heap) (c : nat) (n : string) : option attr_value :=
  match find_attr h (mro h c) n with
  | Some (AttrObj v) => Some (GotObj v)
  | Some (AttrStaticMethod f) => Some (GotObj f)
  | Some (AttrClassMethod f) => Some (GotBoundMethod f c)
  | Some (AttrData v) => Some (GotData v)
  | None => None
  end.

(** [dir(cls)]: the names found along the MRO, sorted. *)
Definition dir (h : heap) (c : nat) : list string :=
  stable_sort String.leb
    (elements (foldr (λ k acc, dom (namespace_of h k) ∪ acc) (∅ : gset string) (mro h c))).

(** [inspect.getmembers(cls, predicate=inspect.isfunction)] *)
Definition getmembers_isfunction (h : heap) (c : nat) : list (string * nat) :=
  omap (λ n, match getattr h c n with
             | Some (GotObj v) => if isfunction h v then Some (n, v) else None
             | _ => None
             end) (dir h c).

(** [setattr(cls, n, v)] *)
Definition setattr (h : heap) (c : nat) (n : string) (v : nat) : heap :=
  match h !! c with
  | Some (Class q tail ns) => <[c := Class q tail (<[n := AttrObj v]> ns)]> h
  | _ => h
  end.

(** *** [deprecated] *)

Record params : Type := {
  deprecated_by : list string;
  available_until : option string;
  public_name : option string;
}.

Definition with_public_name (P : params) (name : string) : params :=
  {| deprecated_by := deprecated_by P;
     available_until := available_until P;
     public_name := Some name |}.

Definition unsupported_error : string :=
  "Deprecation of something else than class or function.".

(** [hash(symbol)] succeeds: functions and classes are hashable, another
    object (a list, a dict, an instance) may not be. *)
Definition hashable (h : heap) (v : nat) : bool :=
  match h !! v with
  | Some (Other can_hash _) => can_hash
  | _ => true
  end.

(** The text of the [TypeError] of a dictionary lookup with an
    unhashable key; the interpreter adds the name of the type. *)
Definition unhashable_error : string := "unhashable type".

(** The reported name: the explicit [public_name], else the name recorded
    by [public], else [symbol.__qualname__]; an empty string counts as
    missing.  [PublicNames.nameOf.get(symbol)] hashes the symbol and
    raises [TypeError] when it cannot; reading [__qualname__] on an
    object without one raises [AttributeError]. *)
Definition resolve_name (P : params) (nameOf : name_registry) (h : heap)
    (symbol : nat) : result string :=
  let name := public_name P in
  match (if truthy name then Ok name
         else if hashable h symbol then Ok (dict_get (PyObj symbol) nameOf)
         else Raise (TypeError unhashable_error)) with
  | Raise e => Raise e
  | Ok name =>
      if truthy name then Ok (default "" name)
      else match qualname_of h symbol with
           | Some q => Ok q
           | None => Raise (AttributeError "__qualname__")
           end
  end.

(** The loop [for n, m in methods: setattr(symbol, n, dep(m))], where
    [dep n] is [deprecated(..., public_name=name + "." + n)]. *)
Definition wrap_members (dep : string → nat → heap → result nat * heap)
    (symbol : nat) : list (string * nat) → heap → result unit * heap :=
  fix go methods h :=
    match methods with
    | [] => (Ok (), h)
    | (n, m) :: rest =>
        match dep n m h with
        | (Ok w, h1) => go rest (setattr h1 symbol n w)
        | (Raise e, h1) => (Raise e, h1)
        end
    end.

(** The closure [deprecate] returned by [deprecated], applied to [symbol].
    The recursion through the members of a class is bounded by [fuel]. *)
Fixpoint deprecate (fuel : nat) (P : params) (nameOf : name_registry)
    (symbol : nat) (h : heap) : result nat * heap :=
  match fuel with
  | O => (Raise RecursionError, h)
  | S fuel' =>
      match resolve_name P nameOf h symbol with
      | Raise e => (Raise e, h)
      | Ok name =>
          if isclass h symbol then
            let methods := getmembers_isfunction h symbol in
            match wrap_members
                    (λ n m, deprecate fuel' (with_public_name P (name +:+ "." +:+ n)) nameOf m)
                    symbol methods h with
            | (Ok _, h') => (Ok symbol, h')
            | (Raise e, h') => (Raise e, h')
            end
          else if isfunction h symbol then
            match generate_deprecation_message name (deprecated_by P) (available_until P) with
            | Ok message =>
                (Ok (length h),
                 h ++ [DeprecatedF symbol message (default "" (qualname_of h symbol))])
            | Raise e => (Raise e, h)
            end
          else (Raise (HopsworksApigenError unsupported_error), h)
      end
  end.

(** *** Members of a class *)

(** The parameters with which the message can be built. *)
Definition valid_params (P : params) : Prop :=
  deprecated_by P ≠ []
  ∧ (truthy (available_until P) = false
     ∨ re_match_major_minor (default "" (available_until P)) = true).

(** [f] is the function that [getattr(c, n)] returns. *)
Definition function_member (h : heap) (c : nat) (n : string) (f : nat) : Prop :=
  getattr h c n = Some (GotObj f) ∧ isfunction h f = true.

(** In [h'] the name [n] of the class [c] is bound to a deprecation
    wrapper of the function it had in [h], reporting [name.n]. *)
Definition wrapped (P : params) (name : string) (h : heap) (c : nat)
    (h' : heap) (n : string) : Prop :=
  ∃ f w message,
    function_member h c n f
    ∧ namespace_of h' c !! n = Some (AttrObj w)
    ∧ h' !! w = Some (DeprecatedF f message (default "" (qualname_of h f)))
    ∧ generate_deprecation_message (name +:+ "." +:+ n)
        (deprecated_by P) (available_until P) = Ok message.

(** What the loop over the members maintains, from the heap [h] in which
    [deprecate] was called to the current heap [h']: the class is where
    it was, with its name and bases; each of its names is bound as
    before or to a wrapper; the other objects of [h] are untouched; the
    objects added since are not classes. *)
Definition class_invariant (P : params) (name : string) (h : heap) (c : nat)
    (q : string) (tail : list nat) (h' : heap) : Prop :=
  (∃ ns', h' !! c = Some (Class q tail ns')
          ∧ ∀ n, ns' !! n = namespace_of h c !! n ∨ wrapped P name h c h' n)
  ∧ length h ≤ length h'
  ∧ (∀ i, i < length h → i ≠ c → h' !! i = h !! i)
  ∧ (∀ i, length h ≤ i → isclass h' i = false).

(** *** The wrapper [deprecated_f] at call time *)

Record warning : Type := {
  w_message : string;
  w_category : string;
  w_stacklevel : nat;
}.

Section wrapper.
Context {Args Kwargs Ret World : Type}.

(** Interpreter state: the warnings issued so far and everything else. *)
Record interp : Type := { emitted : list warning; world : World }.

(** [warnings.warn(message, category, stacklevel)] *)
Definition warnings_warn (message category : string) (stacklevel : nat)
    (st : interp) : interp :=
  {| emitted := emitted st ++ [{| w_message := message;
                                  w_category := category;
                                  w_stacklevel := stacklevel |}];
     world := world st |}.

(** [cn.startswith(prefixes)] with a tuple of prefixes *)
Definition startswith (cn : string) (prefixes : list string) : bool :=
  existsb (λ p, String.prefix p cn) prefixes.

(** The wrapped function, as a state transformer. *)
Variable symbol : Args → Kwargs → interp → Ret * interp.

(** [caller] is [inspect.getmodule(inspect.stack()[1][0])]: the name of
    the caller's module, or [None] when no module is found. *)
Definition deprecated_f (message : string) (caller : option string)
    (args : Args) (kwargs : Kwargs) (st : interp) : Ret * interp :=
  let cn := match caller with
            | Some module_name => module_name
            | None => ""
            end in
  let st := if negb (startswith cn ["hopsworks"; "hsfs"; "hsml"])
            then warnings_warn message "HopsworksDeprecationWarning" 2 st
            else st in
  symbol args kwargs st.
End wrapper.

(** *** A small class hierarchy, for concrete runs *)

Module ClassExample.

(** [Base] defines [run]; [Widget(Base)] defines [show] and the data
    attribute [count], and is published as [api.Widget]. *)
Definition base_namespace : gmap string attr :=
  {[ "run"%string := AttrObj 0 ]}.

Definition widget_namespace : gmap string attr :=
  <[ "show"%string := AttrObj 1 ]> {[ "count"%string := AttrData (PyInt 0) ]}.

Definition objects : heap :=
  [PlainFunction "Base.run";
   PlainFunction "Widget.show";
   Class "Base" [] base_namespace;
   Class "Widget" [2] widget_namespace].

Definition recorded : name_registry := [(PyObj 3, "api.Widget"%string)].

Definition replaced_by : params :=
  {| deprecated_by := ["api.Gadget"%string];
     available_until := Some "5.0"%string;
     public_name := None |}.

(** [@deprecated()]: no recommendation at all. *)
Definition without_recommendation : params :=
  {| deprecated_by := []; available_until := None; public_name := None |}.

End ClassExample.

End Deprecation.

Module Mkdocs.

(** An entry of the navigation list: a string, a mapping, or anything else.
    The values of a mapping are strings or nested lists. *)
Inductive nav_item : Type :=
| NavStr (s : string)
| NavDict (entries : list (string * nav_value))
| NavOther
with nav_value : Type :=
| ValStr (s : string)
| ValList (l : list nav_item).

(** The body of the loop of [_merge_nav] over the copy [list(cfg_nav)],
    from index [position] on; [cfg_nav] is the list mutated in place. *)
Fixpoint merge_loop (position : nat) (items : list nav_item)
    (cfg_nav : list nav_item) (section_title : string)
    (nav_list : list nav_item) : result (list nav_item) :=
  match items with
  | [] => Ok (cfg_nav ++ [NavDict [(section_title, ValList nav_list)]])
  | item :: rest =>
      match item with
      | NavStr s =>
          if String.eqb s section_title
          then Ok (<[position := NavDict [(section_title, ValList nav_list)]]> cfg_nav)
          else merge_loop (S position) rest cfg_nav section_title nav_list
      | NavDict entries =>
          match entries with
          | [] => Raise StopIteration
          | (name, _) :: _ =>
              if String.eqb name section_title
              then Ok (<[position := NavDict [(section_title, ValList nav_list)]]> cfg_nav)
              else merge_loop (S position) rest cfg_nav section_title nav_list
          end
      | NavOther => merge_loop (S position) rest cfg_nav section_title nav_list
      end
  end.

(** [_merge_nav] returns nothing; the result is [cfg_nav] after the call. *)
Definition _merge_nav (cfg_nav : list nav_item) (section_title : string)
    (nav_list : list nav_item) : result (list nav_item) :=
  merge_loop 0 cfg_nav cfg_nav section_title nav_list.

(** An entry stands for the section when it is the bare title or a
    mapping whose first key is the title; for the single-key mappings of
    a navigation that is the mapping keyed by the title. *)
Definition is_placeholder (section_title : string) (item : nav_item) : Prop :=
  match item with
  | NavStr s => s = section_title
  | NavDict ((name, _) :: _) => name = section_title
  | _ => False
  end.

(** A mapping entry of a navigation has a key. *)
Definition has_key (item : nav_item) : Prop :=
  match item with
  | NavDict [] => False
  | _ => True
  end.

Definition new_section (section_title : string) (nav_list : list nav_item) : nav_item :=
  NavDict [(section_title, ValList nav_list)].

End Mkdocs.

Module Setuptools.

(** *** Strings and paths *)

Definition nl : string := String (Ascii.ascii_of_nat 10) EmptyString.
Definition dot : Ascii.ascii := Ascii.ascii_of_nat 46.
Definition slash : Ascii.ascii := Ascii.ascii_of_nat 47.

(** [s.split(sep)] for a one-character separator *)
Fixpoint split_on (sep : Ascii.ascii) (s : string) : list string :=
  match s with
  | EmptyString => [EmptyString]
  | String c rest =>
      if Ascii.eqb c sep then EmptyString :: split_on sep rest
      else match split_on sep rest with
           | [] => [String c EmptyString]
           | x :: xs => String c x :: xs
           end
  end.

(** [s.replace(".", "/")] *)
Fixpoint replace_dots (s : string) : string :=
  match s with
  | EmptyString => EmptyString
  | String c rest => String (if Ascii.eqb c dot then slash else c) (replace_dots rest)
  end.

(** [s.endswith(".py")], the test behind the glob ["*.py"] *)
Definition ends_with_py (s : string) : bool :=
  (3 <=? String.length s)%nat
  && String.eqb (String.substring (String.length s - 3) 3 s) ".py".

(** A [pathlib] path: whether it is anchored at ["/"], and its parts.
    Module paths are dotted names, so the strings handed to [Path] hold
    no [".."] segment; drives and a doubled leading slash are left out. *)
Abbreviation Path := (bool * list string)%type.

(** [Path()] *)
Definition here : Path := (false, []).

(** [Path(s)]: empty and ["."] segments are dropped. *)
Definition parse_path (s : string) : Path :=
  (String.prefix "/" s,
   filter (λ x, x ≠ EmptyString ∧ x ≠ ".") (split_on slash s)).

(** [p / q] *)
Definition joinpath (p q : Path) : Path :=
  if q.1 then q else (p.1, p.2 ++ q.2).

Definition parent (p : Path) : Path := (p.1, removelast p.2).

Definition name (p : Path) : string := List.last p.2 EmptyString.

Definition is_prefix (base l : list string) : bool :=
  bool_decide (take (length base) l = base).

(** [p.relative_to(base)] *)
Definition relative_to (p base : Path) : result Path :=
  if bool_decide (p.1 = base.1) && is_prefix base.2 p.2
  then Ok (false, drop (length base.2) p.2)
  else Raise (ValueError "is not in the subpath of").

(** [str(p)] *)
Definition path_str (p : Path) : string :=
  if p.1 then "/" +:+ join "/" p.2
  else match p.2 with
       | [] => "."
       | _ => join "/" p.2
       end.

(** [name.rfind(".")] *)
Fixpoint rfind_dot (s : string) (pos : nat) (found : option nat) : option nat :=
  match s with
  | EmptyString => found
  | String c rest => rfind_dot rest (S pos) (if Ascii.eqb c dot then Some pos else found)
  end.

(** The final component without its suffix, as [with_suffix("")] leaves it:
    the suffix starts at the last dot, unless that dot is the first or
    the last character. *)
Definition stem (n : string) : string :=
  match rfind_dot n 0 None with
  | Some i =>
      if (0 <? i)%nat && (i <? String.length n - 1)%nat
      then String.substring 0 i n
      else n
  | None => n
  end.

Definition with_suffix_empty (p : Path) : Path :=
  match p.2 with
  | [] => p
  | _ => (p.1, removelast p.2 ++ [stem (name p)])
  end.

(** *** The file system *)

Inductive node : Type :=
| File (content : string)
| Dir.

#[global] Instance node_eq_dec : EqDecision node.
Proof. solve_decision. Defined.

Abbreviation FS := (gmap Path node).

(** A state-and-exception computation over the file system. *)
Abbreviation IO A := (FS → result A * FS).

(** The current directory and the root always exist. *)
Definition exists_ (fs : FS) (p : Path) : bool :=
  match p.2 with
  | [] => true
  | _ => bool_decide (is_Some (fs !! p))
  end.

Definition is_dir (fs : FS) (p : Path) : bool :=
  match p.2 with
  | [] => true
  | _ => bool_decide (fs !! p = Some Dir)
  end.

Definition read_text (p : Path) : IO string := λ fs,
  match p.2 with
  | [] => (Raise (OSError "IsADirectoryError"), fs)
  | _ =>
      match fs !! p with
      | Some (File content) => (Ok content, fs)
      | Some Dir => (Raise (OSError "IsADirectoryError"), fs)
      | None => (Raise (OSError "FileNotFoundError"), fs)
      end
  end.

Definition write_text (p : Path) (content : string) : IO unit := λ fs,
  if is_dir fs p then (Raise (OSError "IsADirectoryError"), fs)
  else if negb (exists_ fs (parent p)) then (Raise (OSError "FileNotFoundError"), fs)
  else if negb (is_dir fs (parent p)) then (Raise (OSError "NotADirectoryError"), fs)
  else (Ok (), <[p := File content]> fs).

Definition mkdir (p : Path) : IO unit := λ fs,
  if exists_ fs p then (Raise (OSError "FileExistsError"), fs)
  else if negb (exists_ fs (parent p)) then (Raise (OSError "FileNotFoundError"), fs)
  else if negb (is_dir fs (parent p)) then (Raise (OSError "NotADirectoryError"), fs)
  else (Ok (), <[p := Dir]> fs).

Definition unlink (p : Path) : IO unit := λ fs,
  match fs !! p with
  | Some (File _) => (Ok (), delete p fs)
  | Some Dir => (Raise (OSError "IsADirectoryError"), fs)
  | None => (Raise (OSError "FileNotFoundError"), fs)
  end.

(** [root.rglob("*.py")]: the entries below [root] whose name ends in
    [.py], in the order the file system lists them. *)
Definition rglob_py (fs : FS) (root : Path) : list Path :=
  filter (λ p : Path, p.1 = root.1 ∧ is_prefix root.2 p.2 = true
                      ∧ (length root.2 < length p.2)%nat
                      ∧ ends_with_py (name p) = true)
         (map fst (map_to_list fs)).

(** *** Alias declarations *)

Record alias : Type := {
  target_module : string;
  from_module : string;
  object_name : string;
  alias_name : string;
}.

Definition skipped_part (part : string) : bool :=
  String.prefix "." part
  || bool_decide (part ∈ ["__pycache__"; "build"; "dist"; "venv"]).

Section synthesis.
(** [HopsworksApigenGriffe.MAGIC_COMMENT], declared in a module that is
    not part of the sources at hand. *)
Variable MAGIC_COMMENT : string.

(** The [griffe] loader with the extension: the alias entries attached
    to the members of the modules found under [root], in scan order. *)
Variable griffe_aliases : Path → FS → list alias.

(** The loop of [_discover_python_modules]; paths are taken relative to
    [root] before they are read or unlinked. *)
Fixpoint discover_loop (root : Path) (found : list Path)
    (python_files : list Path) : IO (list Path) := λ fs,
  match found with
  | [] => (Ok python_files, fs)
  | f :: rest =>
      let py_file : Path := (false, drop (length root.2) f.2) in
      if existsb skipped_part py_file.2
      then discover_loop root rest python_files fs
      else if String.eqb (name py_file) "__init__.py" then
        match read_text py_file fs with
        | (Ok text, fs) =>
            if String.prefix MAGIC_COMMENT text then
              match unlink py_file fs with
              | (Ok _, fs) => discover_loop root rest python_files fs
              | (Raise e, fs) => (Raise e, fs)
              end
            else discover_loop root rest (python_files ++ [py_file]) fs
        | (Raise e, fs) => (Raise e, fs)
        end
      else discover_loop root rest (python_files ++ [py_file]) fs
  end.

Definition _discover_python_modules (root : Path) : IO (list Path) := λ fs,
  discover_loop root (rglob_py fs root) [] fs.

(** [aliases_by_module[alias["target_module"]].append(alias)] *)
Fixpoint group_append (a : alias) (d : list (string * list alias))
    : list (string * list alias) :=
  match d with
  | [] => [(target_module a, [a])]
  | (k, l) :: rest =>
      if decide (target_module a = k) then (k, l ++ [a]) :: rest
      else (k, l) :: group_append a rest
  end.

Definition collect_aliases (root : Path)
    : IO (list (string * list alias) * list Path) := λ fs,
  match _discover_python_modules root fs with
  | (Ok python_files, fs) =>
      (Ok (foldl (λ d a, group_append a d) [] (griffe_aliases root fs), python_files), fs)
  | (Raise e, fs) => (Raise e, fs)
  end.

Definition module_path (py_file : Path) : string :=
  join "." (with_suffix_empty py_file).2.

Definition package_path (py_file : Path) : string :=
  join "." (removelast py_file.2).

Definition source_modules (source_files : list Path) : gset string :=
  list_to_set (omap (λ f, if String.eqb (name f) "__init__.py"
                          then None else Some (module_path f)) source_files).

Definition source_packages (source_files : list Path) : gset string :=
  list_to_set (omap (λ f, if String.eqb (name f) "__init__.py"
                          then Some (package_path f) else None) source_files).

Definition package_exists_error (target : string) : string :=
  "Aliases are attempted to be created at " +:+ target
  +:+ ", but the package already exists in the source files.".

Definition module_exists_error (target parent_module : string) : string :=
  "Aliases are attempted to be created at " +:+ target
  +:+ ", but the module " +:+ parent_module
  +:+ " already exists in the source files.".

Definition duplicate_error (original_ref alias_name target previous : string) : string :=
  original_ref +:+ " is attempted to be exported as " +:+ alias_name
  +:+ " in " +:+ target
  +:+ ", but the package already contains this alias, set to " +:+ previous +:+ ".".

(** [for parent_number in range(1, len(parts) + 1)] *)
Fixpoint check_parents (mods : gset string) (target : string)
    (parts : list string) (numbers : list nat) : result unit :=
  match numbers with
  | [] => Ok ()
  | parent_number :: rest =>
      let parent_module := join "." (take parent_number parts) in
      if bool_decide (parent_module ∈ mods)
      then Raise (HopsworksApigenError (module_exists_error target parent_module))
      else check_parents mods target parts rest
  end.

(** The collision check at the head of the loop over target modules. *)
Definition check_target (mods pkgs : gset string) (target : string) : result unit :=
  if bool_decide (target ∈ pkgs)
  then Raise (HopsworksApigenError (package_exists_error target))
  else
    let parts := split_on dot target in
    check_parents mods target parts (seq 1 (length parts)).

(** Order on the sort key [(from_module, object_name, alias_name)]. *)
Definition key_leb (a b : alias) : bool :=
  match String.compare (from_module a) (from_module b) with
  | Lt => true
  | Gt => false
  | Eq =>
      match String.compare (object_name a) (object_name b) with
      | Lt => true
      | Gt => false
      | Eq => String.leb (alias_name a) (alias_name b)
      end
  end.

Definition original_ref (a : alias) : string :=
  from_module a +:+ "." +:+ object_name a.

(** The loop over the sorted [alias_list]; [content] is [managed[module_file]]. *)
Fixpoint emit_aliases (target : string) (alias_list : list alias)
    (imported_modules : gset string) (declared_names : gmap string string)
    (content : string) : result string :=
  match alias_list with
  | [] => Ok content
  | a :: rest =>
      match declared_names !! alias_name a with
      | Some previous =>
          Raise (HopsworksApigenError
                   (duplicate_error (original_ref a) (alias_name a) target previous))
      | None =>
          let declared_names := <[alias_name a := original_ref a]> declared_names in
          let content :=
            if bool_decide (from_module a ∈ imported_modules) then content
            else content +:+ "import " +:+ from_module a +:+ nl in
          let imported_modules := {[from_module a]} ∪ imported_modules in
          emit_aliases target rest imported_modules declared_names
            (content +:+ alias_name a +:+ " = " +:+ original_ref a +:+ nl)
      end
  end.

Definition module_file (root : Path) (target : string) : Path :=
  joinpath (joinpath root (parse_path (replace_dots target))) (false, ["__init__.py"]).

(** The loop over [aliases_by_module.items()]. *)
Fixpoint managed_loop (root : Path) (mods pkgs : gset string)
    (items : list (string * list alias)) (managed : list (Path * string))
    : result (list (Path * string)) :=
  match items with
  | [] => Ok managed
  | (target, alias_list) :: rest =>
      match check_target mods pkgs target with
      | Raise e => Raise e
      | Ok _ =>
          match emit_aliases target (stable_sort key_leb alias_list) ∅ ∅ MAGIC_COMMENT with
          | Raise e => Raise e
          | Ok content =>
              managed_loop root mods pkgs rest
                (dict_set (module_file root target) content managed)
          end
      end
  end.

(** The part of [collect_managed] after [collect_aliases] has returned. *)
Definition build_managed (root : Path) (aliases_by_module : list (string * list alias))
    (source_files : list Path) : result (list (Path * string)) :=
  managed_loop root (source_modules source_files) (source_packages source_files)
    aliases_by_module [].

Definition collect_managed (root : Path) : IO (list (Path * string)) := λ fs,
  match collect_aliases root fs with
  | (Ok (aliases_by_module, source_files), fs) =>
      (build_managed root aliases_by_module source_files, fs)
  | (Raise e, fs) => (Raise e, fs)
  end.

(** *** Materialisation *)

(** [while not parent.exists(): to_be_created.append(parent); parent = parent.parent].
    A path without parts exists, so the loop ends within
    [length parts + 1] rounds; [fuel] is that bound. *)
Fixpoint missing_parents (fuel : nat) (fs : FS) (parent_ : Path) : list Path :=
  match fuel with
  | O => []
  | S fuel =>
      if exists_ fs parent_ then []
      else parent_ :: missing_parents fuel fs (parent parent_)
  end.

(** [for d in reversed(to_be_created)] *)
Fixpoint create_dirs (destination_root : Path) (dirs : list Path)
    (gitignore_entries : list string) : IO (list string) := λ fs,
  match dirs with
  | [] => (Ok gitignore_entries, fs)
  | d :: rest =>
      let gitignore_entries :=
        match relative_to d destination_root with
        | Ok rel_path => gitignore_entries ++ ["/" +:+ path_str rel_path]
        | Raise _ => gitignore_entries
        end in
      match mkdir d fs with
      | (Ok _, fs) =>
          match write_text (joinpath d (false, ["__init__.py"])) MAGIC_COMMENT fs with
          | (Ok _, fs) => create_dirs destination_root rest gitignore_entries fs
          | (Raise e, fs) => (Raise e, fs)
          end
      | (Raise e, fs) => (Raise e, fs)
      end
  end.

(** [for filepath, content in managed.items()] *)
Fixpoint materialize (source_root destination_root : Path)
    (items : list (Path * string)) (gitignore_entries : list string)
    : IO (list string) := λ fs,
  match items with
  | [] => (Ok gitignore_entries, fs)
  | (filepath, content) :: rest =>
      match relative_to filepath source_root with
      | Raise e => (Raise e, fs)
      | Ok source_filepath =>
          let filepath := joinpath destination_root source_filepath in
          let to_be_created :=
            missing_parents (S (length filepath.2)) fs (parent filepath) in
          match create_dirs destination_root (reverse to_be_created)
                  gitignore_entries fs with
          | (Raise e, fs) => (Raise e, fs)
          | (Ok gitignore_entries, fs) =>
              match write_text filepath content fs with
              | (Raise e, fs) => (Raise e, fs)
              | (Ok _, fs) =>
                  materialize source_root destination_root rest gitignore_entries fs
              end
          end
      end
  end.

Definition write_gitignore (destination_root : Path)
    (gitignore_entries : list string) : IO unit := λ fs,
  match gitignore_entries with
  | [] => (Ok (), fs)
  | _ =>
      let gitignore_path := joinpath destination_root (false, [".gitignore"]) in
      match (if exists_ fs gitignore_path then read_text gitignore_path fs
             else (Ok ("# Ignore generated alias files" +:+ nl), fs)) with
      | (Raise e, fs) => (Raise e, fs)
      | (Ok gitignore_content, fs) =>
          write_text gitignore_path
            (gitignore_content
             +:+ join "" (map (λ x, x +:+ nl) (stable_sort String.leb gitignore_entries)))
            fs
      end
  end.

Definition generate_aliases (source_root destination_root : Path)
    : IO (list (Path * string)) := λ fs,
  match collect_managed source_root fs with
  | (Raise e, fs) => (Raise e, fs)
  | (Ok managed, fs) =>
      match materialize source_root destination_root managed [] fs with
      | (Raise e, fs) => (Raise e, fs)
      | (Ok gitignore_entries, fs) =>
          match write_gitignore destination_root gitignore_entries fs with
          | (Raise e, fs) => (Raise e, fs)
          | (Ok _, fs) => (Ok managed, fs)
          end
      end
  end.

(** *** Installation *)

(** [p.mkdir(parents=True, exist_ok=True)]; the recursion on the parent
    is bounded by the number of parts. *)
Fixpoint mkdir_parents (fuel : nat) (p : Path) : IO unit := λ fs,
  match fuel with
  | O => (Raise RecursionError, fs)
  | S fuel =>
      if exists_ fs p then
        if is_dir fs p then (Ok (), fs) else (Raise (OSError "FileExistsError"), fs)
      else if negb (exists_ fs (parent p)) then
        match mkdir_parents fuel (parent p) fs with
        | (Ok _, fs) => mkdir p fs
        | (Raise e, fs) => (Raise e, fs)
        end
      else mkdir p fs
  end.

(** [shutil.copy(src, dst)] *)
Definition shutil_copy (src dst : Path) : IO unit := λ fs,
  let dst := if is_dir fs dst then joinpath dst (false, [name src]) else dst in
  if bool_decide (src = dst) then (Raise (OSError "SameFileError"), fs)
  else
    match read_text src fs with
    | (Ok content, fs) => write_text dst content fs
    | (Raise e, fs) => (Raise e, fs)
    end.

(** [for src_file in self.aliases_dir.rglob("*.py")] *)
Fixpoint install_loop (aliases_dir install_lib : Path) (found : list Path)
    : IO unit := λ fs,
  match found with
  | [] => (Ok (), fs)
  | src_file :: rest =>
      match relative_to src_file aliases_dir with
      | Raise e => (Raise e, fs)
      | Ok rel_path =>
          let dest_file := joinpath install_lib rel_path in
          match mkdir_parents (S (length (parent dest_file).2)) (parent dest_file) fs with
          | (Raise e, fs) => (Raise e, fs)
          | (Ok _, fs) =>
              if negb (exists_ fs dest_file) then
                match shutil_copy src_file dest_file fs with
                | (Ok _, fs) => install_loop aliases_dir install_lib rest fs
                | (Raise e, fs) => (Raise e, fs)
                end
              else
                match read_text dest_file fs with
                | (Raise e, fs) => (Raise e, fs)
                | (Ok text, fs) =>
                    if String.prefix MAGIC_COMMENT text then
                      match shutil_copy src_file dest_file fs with
                      | (Ok _, fs) => install_loop aliases_dir install_lib rest fs
                      | (Raise e, fs) => (Raise e, fs)
                      end
                    else install_loop aliases_dir install_lib rest fs
                end
          end
      end
  end.

(** [install_aliases.run] *)
Definition install_aliases_run (aliases_dir install_lib : Path) : IO unit := λ fs,
  if negb (exists_ fs aliases_dir) then (Ok (), fs)
  else install_loop aliases_dir install_lib (rglob_py fs aliases_dir) fs.

End synthesis.

(** *** Collisions and duplicates *)

(** [p] is an existing source path that the target module [target]
    collides with: the target itself as a package, or a dotted prefix of
    the target (the target included) as a module. *)
Definition offending (mods pkgs : gset string) (target p : string) : Prop :=
  (p = target ∧ target ∈ pkgs)
  ∨ (∃ k, 1 ≤ k ≤ length (split_on dot target)
          ∧ p = join "." (take k (split_on dot target)) ∧ p ∈ mods).

Definition collides (mods pkgs : gset string) (target : string) : Prop :=
  ∃ p, offending mods pkgs target p.

(** No two declarations of the list export the same name. *)
Definition dup_free (alias_list : list alias) : Prop :=
  NoDup (alias_name <$> alias_list).

(** [declared_names] after the declarations of [l] have been recorded. *)
Definition declare (declared : gmap string string) (l : list alias)
    : gmap string string :=
  foldl (λ d a, <[alias_name a := original_ref a]> d) declared l.

(** A target module that passes both validations. *)
Definition valid_target (mods pkgs : gset string) (item : string * list alias) : Prop :=
  ¬ collides mods pkgs item.1 ∧ dup_free item.2.

(** [keeps MAGIC_COMMENT fs fs']: every file of [fs] whose content does
    not start with the magic marker is in [fs'] with the same content. *)
Definition keeps (MAGIC_COMMENT : string) (fs fs' : FS) : Prop :=
  ∀ q content,
    fs !! q = Some (File content) →
    String.prefix MAGIC_COMMENT content = false →
    fs' !! q = Some (File content).

(** *** A small source tree, for concrete runs *)

Module Example.

Definition magic : string := "# Generated by hopsworks-apigen" +:+ nl.

Definition entry (t f o a : string) : alias :=
  {| target_module := t; from_module := f; object_name := o; alias_name := a |}.

(** pkg/__init__.py, pkg/mod.py, src/a.py, src/b.py; and a build
    directory that holds a hand-written file at a generated path. *)
Definition tree : FS :=
  list_to_map
    [((false, ["pkg"]), Dir);
     ((false, ["pkg"; "__init__.py"]), File "import os");
     ((false, ["pkg"; "mod.py"]), File "def g(): pass");
     ((false, ["src"]), Dir);
     ((false, ["src"; "a.py"]), File "def f(): pass");
     ((false, ["src"; "b.py"]), File "def f(): pass");
     ((false, ["build"]), Dir);
     ((false, ["build"; "aliases"]), Dir);
     ((false, ["build"; "aliases"; "api"]), Dir);
     ((false, ["build"; "aliases"; "api"; "__init__.py"]), File "x = 1")].

(** The source files that discovery finds in [tree]. *)
Definition sources : list Path :=
  [(false, ["pkg"; "mod.py"]); (false, ["src"; "b.py"]);
   (false, ["src"; "a.py"]); (false, ["pkg"; "__init__.py"])].

(** Two functions published as [api.f], and one alias below the module
    [pkg.mod]. *)
Definition scan_two_errors (root : Path) (fs : FS) : list alias :=
  [entry "api" "src.a" "f" "f";
   entry "pkg.mod" "pkg.mod" "g" "g";
   entry "api" "src.b" "f" "f"].


(** The same declaration twice. *)
Definition scan_repeated (root : Path) (fs : FS) : list alias :=
  [entry "api" "src.a" "f" "f"; entry "api" "src.a" "f" "f"].

(** Two different functions under one name. *)
Definition scan_conflict (root : Path) (fs : FS) : list alias :=
  [entry "api" "src.a" "f" "f"; entry "api" "src.b" "f" "f"].

(** A single alias. *)
Definition scan_one (root : Path) (fs : FS) : list alias :=
  [entry "api" "src.a" "f" "f"].

(** A build directory with one generated alias module, and an install
    directory that already holds a hand-written file at the same
    relative path. *)
Definition build_tree : FS :=
  list_to_map
    [((false, ["build"]), Dir);
     ((false, ["build"; "aliases"]), Dir);
     ((false, ["build"; "aliases"; "api"]), Dir);
     ((false, ["build"; "aliases"; "api"; "__init__.py"]),
      File (magic +:+ "import src.a" +:+ nl +:+ "f = src.a.f" +:+ nl));
     ((false, ["lib"]), Dir);
     ((false, ["lib"; "api"]), Dir);
     ((false, ["lib"; "api"; "__init__.py"]), File "from .impl import *")].

End Example.

End Setuptools.

(** * Further definitions *)

Module Ordering.
Import Setuptools.

(** The sort key of [collect_managed]. *)
Definition sort_key (a : alias) : string * string * string :=
  (from_module a, object_name a, alias_name a).

(** The order of Python on triples of strings. *)
Definition triple_leb (x y : string * string * string) : bool :=
  match String.compare x.1.1 y.1.1 with
  | Lt => true
  | Gt => false
  | Eq =>
      match String.compare x.1.2 y.1.2 with
      | Lt => true
      | Gt => false
      | Eq => String.leb x.2 y.2
      end
  end.

End Ordering.

Module Discovery.
Import Setuptools.

(** A generated package marker of [fs] that discovery looks at: a file
    named [__init__.py], outside the skipped directories, whose content
    starts with the magic marker. *)
Definition generated_marker (MAGIC_COMMENT : string) (fs : FS) (q : Path) : Prop :=
  name q = "__init__.py"%string
  ∧ existsb skipped_part q.2 = false
  ∧ ∃ text, fs !! q = Some (File text) ∧ String.prefix MAGIC_COMMENT text = true.

(** A source file as discovery returns it: outside the skipped
    directories, and when it is an [__init__.py], a file of [fs] that
    does not start with the magic marker. *)
Definition source_file (MAGIC_COMMENT : string) (fs : FS) (p : Path) : Prop :=
  existsb skipped_part p.2 = false
  ∧ (name p = "__init__.py"%string →
     ∃ text, fs !! p = Some (File text) ∧ String.prefix MAGIC_COMMENT text = false).

(** A source tree that still holds a generated package marker, and a
    hidden directory. *)
Definition stale_tree : FS :=
  list_to_map
    [((false, ["pkg"]), Dir);
     ((false, ["pkg"; "__init__.py"]), File "import os");
     ((false, ["pkg"; "mod.py"]), File "def g(): pass");
     ((false, ["api"]), Dir);
     ((false, ["api"; "__init__.py"]), File (Example.magic +:+ "import pkg.mod"));
     ((false, [".venv"]), Dir);
     ((false, [".venv"; "__init__.py"]), File (Example.magic +:+ "x = 1"))].

(** [grows fs fs']: every entry of [fs] is still there in [fs'], and the
    directories of [fs] are still directories. *)
Definition grows (fs fs' : FS) : Prop :=
  ∀ q, (is_Some (fs !! q) → is_Some (fs' !! q))
       ∧ (fs !! q = Some Dir → fs' !! q = Some Dir).

(** [marked MAGIC_COMMENT fs0 fs]: every directory of [fs] that was not
    in [fs0] holds an [__init__.py] that starts with the magic marker. *)
Definition marked (MAGIC_COMMENT : string) (fs0 fs : FS) : Prop :=
  ∀ d, fs0 !! d = None → fs !! d = Some Dir →
       ∃ text, fs !! joinpath d (false, ["__init__.py"]) = Some (File text)
               ∧ String.prefix MAGIC_COMMENT text = true.

End Discovery.

Module Patterns.

(** A [str] is a sequence of code points; a string of the 8-bit range
    has the code points of its characters. *)
Definition code_points (s : string) : list N :=
  Ascii.N_of_ascii <$> String.list_ascii_of_string s.

(** The atoms that the version pattern is made of: [^], [\d+], a
    literal character and [$]. *)
Inductive atom : Type :=
| Caret
| Digits
| Lit (c : N)
| Dollar.

(** [r"^\d+\.\d+$"] *)
Definition VERSION_PATTERN : list atom := [Caret; Digits; Lit 46; Digits; Dollar].

(** [$] without [re.MULTILINE]: the end of the string, or just before a
    newline that ends the string. *)
Definition at_end (s : list N) : bool :=
  match s with
  | [] => true
  | [c] => N.eqb c 10
  | _ => false
  end.

Section matching.
(** The class [\d] of a [str] pattern: the decimal digits of Unicode,
    a table of the interpreter. *)
Variable decimal : N → bool.

(** [\d+] followed by the rest of the pattern [k]: one or more digits,
    the longest run first, giving digits back until [k] accepts. *)
Fixpoint one_or_more (k : list N → bool) (s : list N) : bool :=
  match s with
  | c :: rest => decimal c && (one_or_more k rest || k rest)
  | [] => false
  end.

(** The pattern matches at the current position; [at_start] says
    whether this position is the start of the string.  Once the pattern
    is used up the match succeeds, whatever is left of the string. *)
Fixpoint match_here (pattern : list atom) (at_start : bool) (s : list N) : bool :=
  match pattern with
  | [] => true
  | Caret :: rest => at_start && match_here rest at_start s
  | Dollar :: rest => at_end s && match_here rest at_start s
  | Lit c :: rest =>
      match s with
      | x :: s' => N.eqb x c && match_here rest false s'
      | [] => false
      end
  | Digits :: rest => one_or_more (match_here rest false) s
  end.

(** [re.match(pattern, s)] as a truth value. *)
Definition re_match (pattern : list atom) (s : list N) : bool :=
  match_here pattern true s.

End matching.

End Patterns.

Module NavTree.
Import Mkdocs Setuptools.

Definition quote : string := String (Ascii.ascii_of_nat 34) EmptyString.

Definition MOD_SYMBOL : string :=
  "<code class=" +:+ quote +:+ "doc-symbol doc-symbol-nav doc-symbol-module"
  +:+ quote +:+ "></code>".

(** [_NavNode]; [children] is a dictionary, in insertion order. *)
#[local] Unset Elimination Schemes.
Inductive NavNode : Type :=
| mkNavNode (title : string) (doc_path : option string)
    (children : list (string * NavNode)).
#[local] Set Elimination Schemes.

Definition title_of (node : NavNode) : string :=
  match node with mkNavNode title _ _ => title end.

Definition doc_path_of (node : NavNode) : option string :=
  match node with mkNavNode _ doc_path _ => doc_path end.

Definition children_of (node : NavNode) : list (string * NavNode) :=
  match node with mkNavNode _ _ children => children end.

(** [node.children[name] = child] *)
Definition set_child (node : NavNode) (name : string) (child : NavNode) : NavNode :=
  mkNavNode (title_of node) (doc_path_of node) (dict_set name child (children_of node)).

(** The walk of [add_module] along [parts]: the namespace nodes of
    [parts[:-1]] are reused or created, and the child named [parts[-1]]
    of the last one is replaced by a fresh node with the page. *)
Fixpoint add_parts (parts : list string) (docs_path : string) (node : NavNode)
    : NavNode :=
  match parts with
  | [] => node
  | part :: rest =>
      match rest with
      | [] => set_child node part (mkNavNode part (Some docs_path) [])
      | _ =>
          set_child node part
            (add_parts rest docs_path
               (default (mkNavNode part None []) (dict_get part (children_of node))))
      end
  end.

Definition add_module (module_path docs_path : string) (node : NavNode) : NavNode :=
  add_parts (split_on dot module_path) docs_path node.

(** One entry of [as_list], from the name of a child, its page, whether
    it has children, and its own list. *)
Definition nav_entry (x : string * (option string * bool * list nav_item))
    : option nav_item :=
  let '(name, (doc_path, has_children, child_list)) := x in
  if Errors.truthy doc_path && negb has_children
  then Some (NavDict [(MOD_SYMBOL +:+ " " +:+ name, ValStr (default "" doc_path))])
  else if has_children
  then Some (NavDict [(MOD_SYMBOL +:+ " " +:+ name,
                       ValList (if Errors.truthy doc_path
                                then NavStr (default "" doc_path) :: child_list
                                else child_list))])
  else None.

(** [as_list]: the children are taken in the order of their names. *)
Fixpoint as_list (node : NavNode) : list nav_item :=
  match node with
  | mkNavNode _ _ children =>
      omap nav_entry
        (stable_sort (λ x y, String.leb x.1 y.1)
           ((fix each (cs : list (string * NavNode)) :=
               match cs with
               | [] => []
               | (name, child) :: rest =>
                   (name,
                    (doc_path_of child,
                     negb (bool_decide (children_of child = [])) ,
                     as_list child))
                   :: each rest
               end) children))
  end.

(** The node reached from [node] along [parts], and its page. *)
Fixpoint find_node (parts : list string) (node : NavNode) : option NavNode :=
  match parts with
  | [] => Some node
  | part :: rest =>
      match dict_get part (children_of node) with
      | Some child => find_node rest child
      | None => None
      end
  end.

Definition doc_at (parts : list string) (node : NavNode) : option string :=
  match find_node parts node with
  | Some found => doc_path_of found
  | None => None
  end.

(** What a tree with the single module [parts] renders as. *)
Fixpoint chain (parts : list string) (docs_path : string) : list nav_item :=
  match parts with
  | [] => []
  | part :: rest =>
      match rest with
      | [] => [NavDict [(MOD_SYMBOL +:+ " " +:+ part, ValStr docs_path)]]
      | _ => [NavDict [(MOD_SYMBOL +:+ " " +:+ part, ValList (chain rest docs_path))]]
      end
  end.

(** [_module_doc_path] *)
Definition _module_doc_path (api_root_uri : string) (root_modules : gset string)
    (module_path : string) : string :=
  let parts := split_on dot module_path in
  let docpath := api_root_uri +:+ "/" +:+ join "/" parts in
  if bool_decide (module_path ∈ root_modules)
  then docpath +:+ "/index.md"
  else docpath +:+ ".md".

(** The order of the key [(-x[1], x[0])] on (path, order) pairs. *)
Definition object_leb (x y : string * Z) : bool :=
  match Z.compare (- x.2) (- y.2) with
  | Lt => true
  | Gt => false
  | Eq => String.leb x.1 y.1
  end.

(** [[path for path, _ in sorted(objects, key=lambda x: (-x[1], x[0]))]] *)
Definition sorted_object_paths (objects : list (string * Z)) : list string :=
  (stable_sort object_leb objects).*1.

(** [x] is listed no later than [y]: a higher order, or the same order
    and a path that is not greater. *)
Definition listed_before (x y : string * Z) : Prop :=
  (y.2 < x.2)%Z ∨ (x.2 = y.2 ∧ String.le x.1 y.1).

End NavTree.

(** * Properties *)

(** Closes an equation between closed terms by evaluating both sides. *)
Ltac by_computation :=
  lazymatch goal with
  | |- @eq ?T ?x ?y => vm_cast_no_check (@eq_refl T y)
  end.

(** ** Strings *)

Lemma append_nil_l (s : string) : "" +:+ s = s.
Proof. reflexivity. Qed.

Lemma append_cons (c : Ascii.ascii) (a b : string) :
  String c a +:+ b = String c (a +:+ b).
Proof. reflexivity. Qed.

Lemma prefix_app (a b : string) : String.prefix a (a +:+ b) = true.
Proof.
  induction a as [|c a IH].
  - by destruct b.
  - rewrite append_cons. simpl. destruct (Ascii.ascii_dec c c); [exact IH | congruence].
Qed.

Lemma str_contains_prefix (s hay : string) :
  String.prefix s hay = true → str_contains s hay = true.
Proof. intros H. destruct hay; cbn [str_contains]; rewrite H; done. Qed.

Lemma str_contains_app (pre s post : string) :
  str_contains s (pre +:+ s +:+ post) = true.
Proof.
  induction pre as [|c pre IH].
  - rewrite append_nil_l. apply str_contains_prefix, prefix_app.
  - rewrite append_cons. cbn [str_contains]. rewrite IH. apply orb_true_r.
Qed.

Lemma names_app (pre s post : string) : names (pre +:+ s +:+ post) s.
Proof. apply str_contains_app. Qed.

Lemma names_app_end (pre s : string) : names (pre +:+ s) s.
Proof.
  unfold names. replace (pre +:+ s) with (pre +:+ s +:+ "").
  - apply str_contains_app.
  - f_equal. induction s as [|c s IH]; [done|]. rewrite append_cons. congruence.
Qed.

Lemma app_assoc_str (a b c : string) : (a +:+ b) +:+ c = a +:+ b +:+ c.
Proof.
  induction a as [|x a IH]; [done|]. rewrite !append_cons. congruence.
Qed.

(** ** Deprecation messages *)

Section errors_properties.
Import Errors.

Lemma match_is_truthy (v : string) :
  re_match_major_minor v = true → truthy (Some v) = true.
Proof. by destruct v. Qed.

Lemma recs_text_one (x : string) : recs_text [x] = x.
Proof. reflexivity. Qed.

Lemma recs_text_two (x y : string) : recs_text [x; y] = x +:+ " or " +:+ y.
Proof. reflexivity. Qed.

Lemma recs_text_many (init : list string) (z : string) :
  2 ≤ length init →
  recs_text (init ++ [z]) = join ", " init +:+ ", or " +:+ z.
Proof.
  intros Hlen. unfold recs_text.
  rewrite length_app, Nat.add_1_r.
  destruct init as [|a [|b init]]; simpl in Hlen; try lia.
  cbn [length Nat.eqb].
  change (a :: b :: init) with ([a; b] ++ init).
  rewrite <- (app_assoc [a; b] init [z]).
  change ([a; b] ++ init ++ [z]) with (a :: b :: init ++ [z]).
  change (a :: b :: init ++ [z]) with ((a :: b :: init) ++ [z]).
  by rewrite removelast_last, last_last.
Qed.

(** C5.  For a non-empty list of recommendations and a version that is
    absent or matches the pattern, [generate_deprecation_message] returns
    a text that begins with the name, announces the removal in
    "version <available_until>" or in "a future release", and joins the
    recommendations: one alone, two with " or ", three or more with
    commas and a final ", or <last>". *)
Theorem generate_deprecation_message_format
    (name : string) (recs : list string) (au : option string) :
  recs ≠ [] →
  (au = None ∨ ∃ v, au = Some v ∧ re_match_major_minor v = true) →
  ∃ v_text r_text,
    generate_deprecation_message name recs au
    = Ok (name +:+ " is deprecated. The function will be removed in "
          +:+ v_text +:+ " of hopsworks. Consider using " +:+ r_text +:+ " instead.")
    ∧ names (name +:+ " is deprecated. The function will be removed in "
             +:+ v_text +:+ " of hopsworks. Consider using " +:+ r_text +:+ " instead.")
            name
    ∧ (∀ v, au = Some v → v_text = "version " +:+ v)
    ∧ (au = None → v_text = "a future release")
    ∧ (∀ x, recs = [x] → r_text = x)
    ∧ (∀ x y, recs = [x; y] → r_text = x +:+ " or " +:+ y)
    ∧ (∀ init z, recs = init ++ [z] → 2 ≤ length init →
         r_text = join ", " init +:+ ", or " +:+ z).
Proof.
  intros Hne Hau.
  exists (if truthy au then "version " +:+ default "" au else "a future release"),
         (recs_text recs).
  split; [|split; [|split; [|split; [|split; [|split]]]]].
  - unfold generate_deprecation_message.
    replace (truthy au && negb (re_match_major_minor (default "" au))) with false.
    + destruct recs as [|x recs]; [done|]. cbn [length Nat.eqb].
      reflexivity.
    + destruct Hau as [-> | (v & -> & Hv)]; simpl; [done|].
      rewrite Hv. by rewrite andb_false_r.
  - apply (names_app ""%string).
  - intros v ->. destruct Hau as [? | (v' & [= <-] & Hv)]; [done|].
    by rewrite (match_is_truthy _ Hv).
  - by intros ->.
  - by intros x ->.
  - by intros x y ->.
  - intros init z -> Hlen. by apply recs_text_many.
Qed.

Lemma generate_deprecation_message_format_witness :
  ∃ v_text r_text,
    generate_deprecation_message "f" ["X"; "Y"; "Z"] (Some "4.0")
    = Ok ("f" +:+ " is deprecated. The function will be removed in "
          +:+ v_text +:+ " of hopsworks. Consider using " +:+ r_text +:+ " instead.")
    ∧ v_text = "version 4.0" ∧ r_text = "X, Y, or Z".
Proof.
  destruct (generate_deprecation_message_format "f" ["X"; "Y"; "Z"] (Some "4.0"))
    as (v & r & Hmsg & _ & Hv & _ & _ & _ & Hr).
  - discriminate.
  - right. exists "4.0"%string. split; reflexivity.
  - exists v, r. split; [exact Hmsg|]. split.
    + by apply Hv.
    + apply (Hr ["X"; "Y"] "Z"); [reflexivity | simpl; lia].
Defined.

End errors_properties.

Section errors_failures.
Import Errors.

Lemma truthy_nonempty (v : string) : truthy (Some v) = true ↔ v ≠ ""%string.
Proof. destruct v; simpl; split; congruence. Qed.

Lemma generate_deprecation_message_raises
    (name : string) (recs : list string) (au : option string) :
  raises_config (generate_deprecation_message name recs au)
  ↔ recs = [] ∨ ∃ v, au = Some v ∧ v ≠ ""%string ∧ re_match_major_minor v = false.
Proof.
  unfold generate_deprecation_message, raises_config.
  destruct (truthy au && negb (re_match_major_minor (default "" au))) eqn:Hv.
  - split; [intros _ | eauto].
    apply andb_true_iff in Hv as [Ht Hm]. apply negb_true_iff in Hm.
    destruct au as [v|]; [|done]. right. exists v.
    by rewrite <- truthy_nonempty.
  - destruct recs as [|x recs]; cbn [length Nat.eqb].
    + split; eauto.
    + split; [intros [msg [=]]|].
      intros [[=] | (v & -> & Hne & Hm)].
      apply truthy_nonempty in Hne. rewrite Hne in Hv. simpl in Hv.
      by rewrite Hm in Hv.
Qed.

(** C6, as stated, fails: an empty [available_until] is given and does
    not match the pattern, yet no error is raised. *)
Lemma generate_deprecation_message_empty_version :
  ¬ (raises_config (generate_deprecation_message "f" ["a"] (Some ""))
     ↔ (["a"] = ([] : list string)
        ∨ ∃ v, Some ""%string = Some v ∧ re_match_major_minor v = false)).
Proof.
  intros [_ H].
  destruct H as [msg Hmsg]; [right; by exists ""%string | discriminate Hmsg].
Qed.

(** C6 (amended).  [generate_deprecation_message] raises
    [HopsworksApigenError] exactly when the list of recommendations is
    empty or [available_until] is a non-empty string that does not match
    the pattern.  With no recommendation it always fails; with version
    "4" it fails; with version "4.0" it succeeds and the text contains
    "version 4.0".  An empty string counts as absent: the outcome is the
    one for no version at all, and with a recommendation the text
    announces the removal for "a future release". *)
Theorem generate_deprecation_message_errors (name : string) :
  (∀ recs au,
     raises_config (generate_deprecation_message name recs au)
     ↔ recs = [] ∨ ∃ v, au = Some v ∧ v ≠ ""%string ∧ re_match_major_minor v = false)
  ∧ (∀ au, raises_config (generate_deprecation_message name [] au))
  ∧ raises_config (generate_deprecation_message name ["a"] (Some "4"))
  ∧ (∃ msg, generate_deprecation_message name ["a"] (Some "4.0") = Ok msg
            ∧ names msg "version 4.0")
  ∧ (∀ recs, generate_deprecation_message name recs (Some "")
             = generate_deprecation_message name recs None)
  ∧ (∀ x recs,
       ∃ msg, generate_deprecation_message name (x :: recs) (Some "") = Ok msg
              ∧ names msg "a future release").
Proof.
  split; [|split; [|split; [|split; [|split]]]].
  - apply generate_deprecation_message_raises.
  - intros au. apply generate_deprecation_message_raises. by left.
  - apply generate_deprecation_message_raises. right.
    exists "4"%string. by repeat split.
  - exists (name +:+ " is deprecated. The function will be removed in "
            +:+ "version 4.0" +:+ " of hopsworks. Consider using a instead.").
    split; [reflexivity|].
    rewrite <- app_assoc_str. apply names_app.
  - reflexivity.
  - intros x recs.
    exists (name +:+ " is deprecated. The function will be removed in "
            +:+ "a future release"
            +:+ " of hopsworks. Consider using " +:+ recs_text (x :: recs) +:+ " instead.").
    split; [reflexivity|].
    rewrite <- app_assoc_str. apply names_app.
Qed.

End errors_failures.

(** ** The deprecation wrapper *)

Section wrapper_properties.
Import Deprecation.
Context {Args Kwargs Ret World : Type}.
Implicit Types (st : @interp World).

(** C7.  The wrapper returns what the wrapped function returns on the
    same arguments, run in a state that differs from the caller's only
    by the warning: one [HopsworksDeprecationWarning] carrying the
    message is added when the caller's module name starts with none of
    "hopsworks", "hsfs", "hsml", and none otherwise.  This holds in every
    state, whatever was emitted before. *)
Theorem deprecated_f_transparent
    (symbol : Args → Kwargs → @interp World → Ret * @interp World)
    (message : string) (caller : option string)
    (args : Args) (kwargs : Kwargs) st :
  let cn := default ""%string caller in
  let w := {| w_message := message;
              w_category := "HopsworksDeprecationWarning";
              w_stacklevel := 2 |} in
  ∃ st',
    deprecated_f symbol message caller args kwargs st = symbol args kwargs st'
    ∧ world st' = world st
    ∧ (emitted st' = emitted st ++ [w]
       ↔ startswith cn ["hopsworks"; "hsfs"; "hsml"] = false)
    ∧ (emitted st' = emitted st
       ↔ startswith cn ["hopsworks"; "hsfs"; "hsml"] = true).
Proof.
  intros cn w. unfold deprecated_f.
  replace (match caller with Some m => m | None => ""%string end) with cn
    by by destruct caller.
  destruct (startswith cn _) eqn:Hcn; cbn [negb].
  - exists st. repeat split; try done.
    intros H. apply (f_equal length) in H. rewrite length_app in H. simpl in H. lia.
  - eexists. repeat split; try done.
    cbn [warnings_warn emitted].
    intros H. apply (f_equal length) in H. rewrite length_app in H. simpl in H. lia.
Qed.

End wrapper_properties.

(** ** [public] *)

Section aliases_properties.
Import Aliases.

(** C8, as stated, fails: with a non-string first path the decorator
    raises [TypeError], which is not a [HopsworksApigenError]. *)
Lemma publicate_raises_type_error :
  isinstance_str (PyInt 1) = false
  ∧ public [PyInt 1; PyStr "a.f"] 0 = ReturnPublicate [PyInt 1; PyStr "a.f"]
  ∧ (publicate [PyInt 1; PyStr "a.f"] (PyObj 0) []).1
    = Raise (TypeError primary_path_error)
  ∧ ¬ raises_config (publicate [PyInt 1; PyStr "a.f"] (PyObj 0) []).1.
Proof. repeat split. intros [msg [=]]. Qed.

(** C8 (amended).  When [public] is called with two or more paths the
    first of which is not a string, applying the decorator it returns
    raises [TypeError] with the primary-path message and records
    nothing; called with a single argument that is not a string,
    [public] is the bare form and returns that argument itself. *)
Theorem public_non_string_primary
    (paths : list pyval) (order : Z) (first : pyval)
    (symbol : pyval) (nameOf : name_registry) :
  head paths = Some first →
  isinstance_str first = false →
  (length paths ≠ 1 →
     public paths order = ReturnPublicate paths
     ∧ publicate paths symbol nameOf = (Raise (TypeError primary_path_error), nameOf))
  ∧ (length paths = 1 → public paths order = ReturnSymbol first).
Proof.
  intros Hhead Hstr. destruct paths as [|p rest]; [done|].
  injection Hhead as ->. split.
  - intros Hlen. unfold public, publicate.
    destruct rest as [|q rest]; [done|]. cbn [length Nat.eqb andb].
    split; [done|]. by destruct first.
  - intros Hlen. destruct rest; [|done]. unfold public. simpl. by rewrite Hstr.
Qed.

Lemma public_non_string_primary_witness :
  public [PyNone; PyStr "m.f"] 0 = ReturnPublicate [PyNone; PyStr "m.f"]
  ∧ publicate [PyNone; PyStr "m.f"] (PyObj 3) []
    = (Raise (TypeError primary_path_error), []).
Proof.
  apply (public_non_string_primary [PyNone; PyStr "m.f"] 0 PyNone (PyObj 3) []);
    [reflexivity | reflexivity | simpl; lia].
Defined.

End aliases_properties.

(** ** Navigation merge *)

Section mkdocs_properties.
Import Mkdocs.

Lemma merge_loop_skip (title : string) (nav_list cfg_nav : list nav_item)
    (position : nat) (item : nav_item) (rest : list nav_item) :
  has_key item → ¬ is_placeholder title item →
  merge_loop position (item :: rest) cfg_nav title nav_list
  = merge_loop (S position) rest cfg_nav title nav_list.
Proof.
  intros Hkey Hno. destruct item as [s|[|[name v] entries]|]; simpl in *; try done.
  - destruct (String.eqb_spec s title); [done | reflexivity].
  - destruct (String.eqb_spec name title); [done | reflexivity].
Qed.

Lemma merge_loop_hit (title : string) (nav_list cfg_nav : list nav_item)
    (position : nat) (item : nav_item) (rest : list nav_item) :
  is_placeholder title item →
  merge_loop position (item :: rest) cfg_nav title nav_list
  = Ok (<[position := new_section title nav_list]> cfg_nav).
Proof.
  intros Hyes. destruct item as [s|[|[name v] entries]|]; simpl in *; try done.
  - by rewrite Hyes, String.eqb_refl.
  - by rewrite Hyes, String.eqb_refl.
Qed.

Lemma merge_loop_replace (title : string) (nav_list : list nav_item)
    (pre : list nav_item) :
  ∀ (done_ : list nav_item) (item : nav_item) (post : list nav_item),
    Forall has_key pre →
    Forall (λ x, ¬ is_placeholder title x) pre →
    is_placeholder title item →
    merge_loop (length done_) (pre ++ item :: post)
      (done_ ++ pre ++ item :: post) title nav_list
    = Ok (done_ ++ pre ++ new_section title nav_list :: post).
Proof.
  induction pre as [|a pre IH]; intros done_ item post Hkey Hno Hitem.
  - cbn [app]. rewrite merge_loop_hit by done. f_equal.
    replace (length done_) with (length done_ + 0) by lia.
    by rewrite insert_app_r.
  - inversion_clear Hkey. inversion_clear Hno.
    cbn [app]. rewrite merge_loop_skip by done.
    specialize (IH (done_ ++ [a]) item post).
    rewrite length_app, Nat.add_1_r, <- !app_assoc in IH. by apply IH.
Qed.

Lemma merge_loop_append (title : string) (nav_list cfg_nav : list nav_item)
    (items : list nav_item) :
  ∀ position,
    Forall has_key items →
    Forall (λ x, ¬ is_placeholder title x) items →
    merge_loop position items cfg_nav title nav_list
    = Ok (cfg_nav ++ [new_section title nav_list]).
Proof.
  induction items as [|a items IH]; intros position Hkey Hno; [done|].
  inversion_clear Hkey. inversion_clear Hno.
  rewrite merge_loop_skip by done. by apply IH.
Qed.

(** C9.  In a navigation list whose mapping entries have a key, the
    merge replaces the first entry that stands for the section, at its
    position, and leaves the entries before and after it as they were;
    when no entry stands for the section it appends the new section after
    the unchanged list. *)
Theorem merge_nav_in_place (cfg_nav : list nav_item) (section_title : string)
    (nav_list : list nav_item) :
  Forall has_key cfg_nav →
  (∀ pre item post,
     cfg_nav = pre ++ item :: post →
     Forall (λ x, ¬ is_placeholder section_title x) pre →
     is_placeholder section_title item →
     _merge_nav cfg_nav section_title nav_list
     = Ok (pre ++ new_section section_title nav_list :: post))
  ∧ (Forall (λ x, ¬ is_placeholder section_title x) cfg_nav →
     _merge_nav cfg_nav section_title nav_list
     = Ok (cfg_nav ++ [new_section section_title nav_list])).
Proof.
  intros Hkey. split.
  - intros pre item post -> Hno Hitem. unfold _merge_nav.
    apply Forall_app in Hkey as [Hpre _].
    exact (merge_loop_replace section_title nav_list pre [] item post Hpre Hno Hitem).
  - intros Hno. by apply merge_loop_append.
Qed.

Lemma merge_nav_in_place_witness :
  _merge_nav [NavStr "Home"; NavDict [("API Reference", ValStr "old.md")]; NavStr "About"]
    "API Reference" [NavStr "reference/index.md"]
  = Ok [NavStr "Home";
        NavDict [("API Reference", ValList [NavStr "reference/index.md"])];
        NavStr "About"].
Proof.
  refine (proj1 (merge_nav_in_place
                   [NavStr "Home"; NavDict [("API Reference", ValStr "old.md")];
                    NavStr "About"]
                   "API Reference" [NavStr "reference/index.md"] _)
                [NavStr "Home"] (NavDict [("API Reference", ValStr "old.md")])
                [NavStr "About"] eq_refl _ _).
  - repeat constructor.
  - repeat constructor. simpl. discriminate.
  - reflexivity.
Defined.

End mkdocs_properties.

(** ** Alias synthesis: validation *)

Section validation.
Import Setuptools.
Implicit Types (mods pkgs : gset string) (target : string).

Lemma check_parents_ok mods target (parts : list string) (numbers : list nat) :
  (∀ k, k ∈ numbers → join "." (take k parts) ∉ mods) →
  check_parents mods target parts numbers = Ok ().
Proof.
  induction numbers as [|k numbers IH]; intros Hfree; [done|].
  cbn [check_parents]. rewrite bool_decide_eq_false_2.
  - apply IH. intros k' Hk'. apply Hfree. by right.
  - apply Hfree. by left.
Qed.

Lemma check_parents_raises mods target (parts : list string) (numbers : list nat) :
  (∃ k, k ∈ numbers ∧ join "." (take k parts) ∈ mods) →
  ∃ k, k ∈ numbers ∧ join "." (take k parts) ∈ mods
       ∧ check_parents mods target parts numbers
         = Raise (HopsworksApigenError
                    (module_exists_error target (join "." (take k parts)))).
Proof.
  induction numbers as [|k numbers IH]; intros (k' & Hin & Hmod).
  - by apply elem_of_nil in Hin.
  - cbn [check_parents].
    destruct (decide (join "." (take k parts) ∈ mods)) as [Hk|Hk].
    + exists k. rewrite bool_decide_eq_true_2 by done.
      split; [by left | done].
    + rewrite bool_decide_eq_false_2 by done.
      apply elem_of_cons in Hin as [-> | Hin]; [done|].
      destruct IH as (j & Hj & Hjm & Heq); [by exists k'|].
      exists j. split; [by right | done].
Qed.

Lemma check_target_ok mods pkgs target :
  ¬ collides mods pkgs target → check_target mods pkgs target = Ok ().
Proof.
  intros Hfree. unfold check_target.
  rewrite bool_decide_eq_false_2.
  - apply check_parents_ok. intros k Hk Hmod. apply Hfree.
    exists (join "." (take k (split_on dot target))). right.
    exists k. apply elem_of_seq in Hk. split; [lia | done].
  - intros Hpkg. apply Hfree. exists target. by left.
Qed.

Lemma names_package_exists target : names (package_exists_error target) target.
Proof. apply (names_app "Aliases are attempted to be created at "). Qed.

Lemma names_module_exists_target target p : names (module_exists_error target p) target.
Proof. apply (names_app "Aliases are attempted to be created at "). Qed.

Lemma names_module_exists_parent target p : names (module_exists_error target p) p.
Proof.
  unfold module_exists_error.
  rewrite <- !app_assoc_str. rewrite app_assoc_str.
  apply names_app.
Qed.

Lemma check_target_raises mods pkgs target :
  collides mods pkgs target →
  ∃ p msg, offending mods pkgs target p
           ∧ check_target mods pkgs target = Raise (HopsworksApigenError msg)
           ∧ names msg target ∧ names msg p.
Proof.
  intros Hcol. unfold check_target.
  destruct (decide (target ∈ pkgs)) as [Hpkg|Hpkg].
  - rewrite bool_decide_eq_true_2 by done.
    exists target, (package_exists_error target).
    split; [by left|]. split; [done|]. split; apply names_package_exists.
  - rewrite bool_decide_eq_false_2 by done.
    destruct Hcol as (p & [[_ ?] | (k & Hk & -> & Hmod)]); [done|].
    destruct (check_parents_raises mods target (split_on dot target)
                (seq 1 (length (split_on dot target))))
      as (j & Hj & Hjm & ->).
    { exists k. split; [apply elem_of_seq; lia | done]. }
    eexists _, _. split; [|split; [reflexivity|]].
    + right. exists j. apply elem_of_seq in Hj. split; [lia | done].
    + split; [apply names_module_exists_target | apply names_module_exists_parent].
Qed.



End validation.

(** ** Sorting and duplicates *)

Lemma insert_sorted_perm {A : Type} (leb : A → A → bool) (x : A) (l : list A) :
  insert_sorted leb x l ≡ₚ x :: l.
Proof.
  induction l as [|y l IH]; [done|]. cbn [insert_sorted].
  destruct (leb x y); [done|]. rewrite IH. apply Permutation_swap.
Qed.

Lemma stable_sort_perm {A : Type} (leb : A → A → bool) (l : list A) :
  stable_sort leb l ≡ₚ l.
Proof.
  induction l as [|x l IH]; [done|]. unfold stable_sort. cbn [foldr].
  rewrite insert_sorted_perm. by f_equiv.
Qed.

Lemma first_duplicate {A B : Type} `{EqDecision B} (f : A → B) (l : list A) :
  ¬ NoDup (f <$> l) →
  ∃ l1 a l2 b l3,
    l = l1 ++ a :: l2 ++ b :: l3 ∧ f a = f b ∧ NoDup (f <$> (l1 ++ a :: l2)).
Proof.
  induction l as [|x l IH] using rev_ind; intros Hdup.
  - destruct Hdup. constructor.
  - destruct (decide (NoDup (f <$> l))) as [Hl|Hl].
    + assert (f x ∈ f <$> l) as Hin.
      { destruct (decide (f x ∈ f <$> l)) as [|Hnot]; [done|].
        destruct Hdup. rewrite fmap_app. apply NoDup_app.
        split; [done|]. split; [|apply NoDup_singleton].
        intros y Hy ->%list_elem_of_singleton. done. }
      apply list_elem_of_fmap in Hin as (a & Hfa & Ha).
      apply list_elem_of_split in Ha as (l1 & l2 & ->).
      exists l1, a, l2, x, []. split; [by rewrite <- app_assoc|]. done.
    + destruct (IH Hl) as (l1 & a & l2 & b & l3 & -> & Hab & Hnodup).
      exists l1, a, l2, b, (l3 ++ [x]). split; [|done].
      rewrite <- app_assoc. cbn [app]. by rewrite <- app_assoc.
Qed.

(** ** Alias synthesis: emission *)

Section emission.
Import Setuptools.

Lemma declare_lookup_other (l : list alias) :
  ∀ declared n, n ∉ alias_name <$> l → declare declared l !! n = declared !! n.
Proof.
  induction l as [|a l IH]; intros declared n Hn; [done|].
  rewrite fmap_cons, not_elem_of_cons in Hn. destruct Hn as [Hna Hn].
  unfold declare. cbn [foldl]. fold (declare (<[alias_name a:=original_ref a]> declared) l).
  rewrite IH by done. by rewrite lookup_insert_ne.
Qed.

Lemma declare_lookup (l1 l2 : list alias) (a : alias) declared :
  NoDup (alias_name <$> (l1 ++ a :: l2)) →
  declare declared (l1 ++ a :: l2) !! alias_name a = Some (original_ref a).
Proof.
  intros Hnodup. unfold declare. rewrite foldl_app. cbn [foldl].
  fold (declare declared l1).
  fold (declare (<[alias_name a:=original_ref a]> (declare declared l1)) l2).
  rewrite fmap_app, fmap_cons in Hnodup.
  apply NoDup_app in Hnodup as (_ & _ & [Ha _]%NoDup_cons).
  rewrite declare_lookup_other by done. apply lookup_insert_eq.
Qed.

Lemma emit_aliases_prefix (target : string) (l1 : list alias) :
  ∀ rest imported declared content,
    (∀ a, a ∈ l1 → declared !! alias_name a = None) →
    NoDup (alias_name <$> l1) →
    ∃ imported' content',
      emit_aliases target (l1 ++ rest) imported declared content
      = emit_aliases target rest imported' (declare declared l1) content'.
Proof.
  induction l1 as [|a l1 IH]; intros rest imported declared content Hfresh Hnodup.
  - by exists imported, content.
  - cbn [app emit_aliases]. rewrite Hfresh by by left.
    rewrite fmap_cons in Hnodup. apply NoDup_cons in Hnodup as [Ha Hnodup].
    apply IH; [|done]. intros b Hb.
    rewrite lookup_insert_ne; [apply Hfresh; by right|].
    intros Heq. apply Ha. rewrite Heq. by apply list_elem_of_fmap_2.
Qed.

Lemma emit_aliases_ok (target : string) (l : list alias)
    (imported : gset string) (content : string) :
  dup_free l → ∃ text, emit_aliases target l imported ∅ content = Ok text.
Proof.
  intros Hnodup.
  destruct (emit_aliases_prefix target l [] imported ∅ content)
    as (imported' & content' & Heq); [done | done |].
  rewrite app_nil_r in Heq. rewrite Heq. by eexists.
Qed.

Lemma emit_aliases_duplicate (target : string) (l1 l2 l3 : list alias)
    (a b : alias) (imported : gset string) (content : string) :
  alias_name a = alias_name b →
  NoDup (alias_name <$> (l1 ++ a :: l2)) →
  emit_aliases target (l1 ++ a :: l2 ++ b :: l3) imported ∅ content
  = Raise (HopsworksApigenError
             (duplicate_error (original_ref b) (alias_name b) target (original_ref a))).
Proof.
  intros Hab Hnodup.
  destruct (emit_aliases_prefix target (l1 ++ a :: l2) (b :: l3) imported ∅ content)
    as (imported' & content' & Heq); [done | done |].
  rewrite <- app_assoc in Heq. cbn [app] in Heq. rewrite Heq.
  cbn [emit_aliases]. rewrite <- Hab. by rewrite declare_lookup.
Qed.

Lemma names_duplicate_new (r n t prev : string) : names (duplicate_error r n t prev) r.
Proof. apply (names_app ""). Qed.

Lemma names_duplicate_previous (r n t prev : string) :
  names (duplicate_error r n t prev) prev.
Proof.
  unfold duplicate_error.
  rewrite <- !app_assoc_str. rewrite app_assoc_str.
  apply names_app.
Qed.

(** A list with a repeated alias name is rejected, whatever the origins. *)
Lemma emit_sorted_duplicate (target : string) (l : list alias)
    (imported : gset string) (content : string) :
  ¬ dup_free l →
  ∃ l1 a l2 b l3,
    stable_sort key_leb l = l1 ++ a :: l2 ++ b :: l3
    ∧ alias_name a = alias_name b
    ∧ emit_aliases target (stable_sort key_leb l) imported ∅ content
      = Raise (HopsworksApigenError
                 (duplicate_error (original_ref b) (alias_name b) target (original_ref a)))
    ∧ dup_free (l1 ++ a :: l2).
Proof.
  intros Hdup.
  destruct (first_duplicate alias_name (stable_sort key_leb l))
    as (l1 & a & l2 & b & l3 & Hsplit & Hab & Hnodup).
  { intros Hsorted. apply Hdup. unfold dup_free.
    by rewrite <- (stable_sort_perm key_leb l). }
  exists l1, a, l2, b, l3. split; [done|]. split; [done|]. split; [|done].
  rewrite Hsplit. by apply emit_aliases_duplicate.
Qed.

Lemma emit_sorted_ok (target : string) (l : list alias)
    (imported : gset string) (content : string) :
  dup_free l →
  ∃ text, emit_aliases target (stable_sort key_leb l) imported ∅ content = Ok text.
Proof.
  intros Hnodup. apply emit_aliases_ok. unfold dup_free.
  by rewrite (stable_sort_perm key_leb l).
Qed.

End emission.

(** ** Alias synthesis: the loop over target modules *)

Section managed.
Import Setuptools.
Variables mods pkgs : gset string.



Variable MAGIC_COMMENT : string.
Variable root : Path.

Lemma managed_loop_valid (pre : list (string * list alias)) :
  ∀ rest managed,
    Forall (valid_target mods pkgs) pre →
    ∃ managed',
      managed_loop MAGIC_COMMENT root mods pkgs (pre ++ rest) managed
      = managed_loop MAGIC_COMMENT root mods pkgs rest managed'.
Proof.
  induction pre as [|[t l] pre IH]; intros rest managed Hvalid.
  - by exists managed.
  - apply Forall_cons in Hvalid as [[Hfree Hnodup] Hvalid].
    cbn [app managed_loop]. rewrite check_target_ok by done.
    destruct (emit_sorted_ok t l ∅ MAGIC_COMMENT Hnodup) as [text ->].
    by apply IH.
Qed.

Lemma managed_loop_ok (items : list (string * list alias)) managed :
  Forall (valid_target mods pkgs) items →
  ∃ managed', managed_loop MAGIC_COMMENT root mods pkgs items managed = Ok managed'.
Proof.
  intros Hvalid.
  destruct (managed_loop_valid items [] managed Hvalid) as [managed' Heq].
  rewrite app_nil_r in Heq. rewrite Heq. by eexists.
Qed.


Lemma managed_loop_duplicate (pre post : list (string * list alias))
    (t : string) (l : list alias) managed :
  Forall (valid_target mods pkgs) pre →
  ¬ collides mods pkgs t →
  ¬ dup_free l →
  ∃ l1 a l2 b l3,
    stable_sort key_leb l = l1 ++ a :: l2 ++ b :: l3
    ∧ alias_name a = alias_name b
    ∧ managed_loop MAGIC_COMMENT root mods pkgs (pre ++ (t, l) :: post) managed
      = Raise (HopsworksApigenError
                 (duplicate_error (original_ref b) (alias_name b) t (original_ref a)))
    ∧ dup_free (l1 ++ a :: l2).
Proof.
  intros Hvalid Hfree Hdup.
  destruct (managed_loop_valid pre ((t, l) :: post) managed Hvalid) as [managed' ->].
  destruct (emit_sorted_duplicate t l ∅ MAGIC_COMMENT Hdup)
    as (l1 & a & l2 & b & l3 & Hsplit & Hab & Hraise & Hfirst).
  exists l1, a, l2, b, l3. split; [done|]. split; [done|]. split; [|done].
  cbn [managed_loop]. by rewrite check_target_ok, Hraise.
Qed.


End managed.

(** ** Alias synthesis: [collect_managed] *)

Section collect_managed_properties.
Import Setuptools.
Variable MAGIC_COMMENT : string.
Variable griffe_aliases : Path → FS → list alias.

Lemma collect_managed_unfold (root : Path) (fs fs' : FS)
    (batch : list (string * list alias)) (files : list Path) :
  collect_aliases MAGIC_COMMENT griffe_aliases root fs = (Ok (batch, files), fs') →
  collect_managed MAGIC_COMMENT griffe_aliases root fs
  = (managed_loop MAGIC_COMMENT root (source_modules files) (source_packages files)
       batch [], fs').
Proof. intros Hcollect. unfold collect_managed. by rewrite Hcollect. Qed.


(** C2 (amended).  In a target module that passes the collision check
    and comes after target modules that pass both validations, two
    declarations with the same alias name make [collect_managed] fail
    with the duplicate-alias error; this holds whether or not their
    origins differ, so a declaration that occurs twice is rejected too.
    The error names the origins of two declarations of that module with
    one alias name: in the sorted order, [b] is the first declaration
    whose alias name is already taken, and [a] is the declaration before
    it that took the name.  A batch in which no target module collides
    and no alias name is repeated within a target module is accepted. *)
Theorem collect_managed_duplicate (root : Path) (fs fs' : FS)
    (batch : list (string * list alias)) (files : list Path) :
  collect_aliases MAGIC_COMMENT griffe_aliases root fs = (Ok (batch, files), fs') →
  let mods := source_modules files in
  let pkgs := source_packages files in
  (∀ pre t l post i j x y,
     batch = pre ++ (t, l) :: post →
     Forall (valid_target mods pkgs) pre →
     ¬ collides mods pkgs t →
     i ≠ j → l !! i = Some x → l !! j = Some y → alias_name x = alias_name y →
     ∃ a b msg,
       a ∈ l ∧ b ∈ l ∧ alias_name a = alias_name b
       ∧ msg = duplicate_error (original_ref b) (alias_name b) t (original_ref a)
       ∧ collect_managed MAGIC_COMMENT griffe_aliases root fs
         = (Raise (HopsworksApigenError msg), fs')
       ∧ names msg (original_ref a) ∧ names msg (original_ref b)
       ∧ ∃ l1 l2 l3,
           stable_sort key_leb l = l1 ++ a :: l2 ++ b :: l3
           ∧ dup_free (l1 ++ a :: l2))
  ∧ (Forall (valid_target mods pkgs) batch →
     ∃ managed, collect_managed MAGIC_COMMENT griffe_aliases root fs = (Ok managed, fs')).
Proof.
  intros Hcollect mods pkgs.
  rewrite (collect_managed_unfold root fs fs' batch files Hcollect).
  fold mods pkgs. split.
  - intros pre t l post i j x y -> Hpre Hfree Hij Hx Hy Hxy.
    assert (¬ dup_free l) as Hdup.
    { unfold dup_free. rewrite NoDup_alt. intros Hnodup. apply Hij.
      apply (Hnodup i j (alias_name x)); rewrite list_lookup_fmap.
      - by rewrite Hx.
      - by rewrite Hy, Hxy. }
    destruct (managed_loop_duplicate mods pkgs MAGIC_COMMENT root pre post t l []
                Hpre Hfree Hdup) as (l1 & a & l2 & b & l3 & Hsplit & Hab & -> & Hfirst).
    assert (∀ z, z ∈ stable_sort key_leb l → z ∈ l) as Hin.
    { intros z. by rewrite (stable_sort_perm key_leb l). }
    exists a, b, (duplicate_error (original_ref b) (alias_name b) t (original_ref a)).
    split; [apply Hin; rewrite Hsplit; set_solver|].
    split; [apply Hin; rewrite Hsplit; set_solver|].
    split; [done|]. split; [done|]. split; [done|].
    split; [apply names_duplicate_previous|]. split; [apply names_duplicate_new|].
    by exists l1, l2, l3.
  - intros Hall.
    destruct (managed_loop_ok mods pkgs MAGIC_COMMENT root batch [] Hall) as [managed ->].
    by exists managed.
Qed.

End collect_managed_properties.

Section collect_managed_runs.
Import Setuptools Example.

Lemma check_target_ok_inv (mods pkgs : gset string) (target : string) :
  check_target mods pkgs target = Ok () → ¬ collides mods pkgs target.
Proof.
  intros Hok (p & msg & _ & Hraise & _)%check_target_raises. congruence.
Qed.



(** C2, as stated, fails: a declaration that occurs twice (same alias
    name, same origin) is not deduplicated; it is rejected with the
    duplicate-alias error. *)
Lemma collect_managed_rejects_repeated :
  collect_aliases magic scan_repeated here tree
  = (Ok ([("api"%string, [entry "api" "src.a" "f" "f"; entry "api" "src.a" "f" "f"])],
         sources), tree)
  ∧ ¬ collides (source_modules sources) (source_packages sources) "api"
  ∧ collect_managed magic scan_repeated here tree
    = (Raise (HopsworksApigenError
                "src.a.f is attempted to be exported as f in api, but the package already contains this alias, set to src.a.f."),
       tree).
Proof.
  split; [by_computation|].
  split; [|by_computation].
  apply check_target_ok_inv. by_computation.
Qed.

Lemma collect_managed_duplicate_witness :
  ∃ a b msg,
    a ∈ [entry "api" "src.a" "f" "f"; entry "api" "src.b" "f" "f"]
    ∧ b ∈ [entry "api" "src.a" "f" "f"; entry "api" "src.b" "f" "f"]
    ∧ alias_name a = alias_name b
    ∧ msg = duplicate_error (original_ref b) (alias_name b) "api" (original_ref a)
    ∧ collect_managed magic scan_conflict here tree
      = (Raise (HopsworksApigenError msg), tree)
    ∧ names msg (original_ref a) ∧ names msg (original_ref b)
    ∧ ∃ l1 l2 l3,
        stable_sort key_leb [entry "api" "src.a" "f" "f"; entry "api" "src.b" "f" "f"]
        = l1 ++ a :: l2 ++ b :: l3
        ∧ dup_free (l1 ++ a :: l2).
Proof.
  refine (proj1 (collect_managed_duplicate magic scan_conflict here tree tree
                   [("api"%string, [entry "api" "src.a" "f" "f"; entry "api" "src.b" "f" "f"])]
                   sources _)
                [] "api" [entry "api" "src.a" "f" "f"; entry "api" "src.b" "f" "f"] []
                0 1 (entry "api" "src.a" "f" "f") (entry "api" "src.b" "f" "f")
                eq_refl _ _ _ eq_refl eq_refl eq_refl).
  - by_computation.
  - constructor.
  - apply check_target_ok_inv. by_computation.
  - lia.
Defined.

End collect_managed_runs.

(** ** Materialisation *)

Section materialisation.
Import Setuptools.
Variable MAGIC_COMMENT : string.
Variable griffe_aliases : Path → FS → list alias.

Lemma read_text_state (p : Path) (fs fs' : FS) (r : result string) :
  read_text p fs = (r, fs') → fs' = fs.
Proof. unfold read_text. repeat case_match; by intros [= _ <-]. Qed.

Lemma write_text_not_config (p : Path) (content : string) (fs fs' : FS) (e : exn) :
  write_text p content fs = (Raise e, fs') → is_config_error e = false.
Proof. unfold write_text. repeat case_match; by intros [= <- _]. Qed.

Lemma mkdir_not_config (p : Path) (fs fs' : FS) (e : exn) :
  mkdir p fs = (Raise e, fs') → is_config_error e = false.
Proof. unfold mkdir. repeat case_match; by intros [= <- _]. Qed.

Lemma read_text_not_config (p : Path) (fs fs' : FS) (e : exn) :
  read_text p fs = (Raise e, fs') → is_config_error e = false.
Proof. unfold read_text. repeat case_match; by intros [= <- _]. Qed.

Lemma create_dirs_not_config (destination_root : Path) (dirs : list Path) :
  ∀ entries fs fs' e,
    create_dirs MAGIC_COMMENT destination_root dirs entries fs = (Raise e, fs') →
    is_config_error e = false.
Proof.
  induction dirs as [|d dirs IH]; intros entries fs fs' e; [done|].
  cbn [create_dirs].
  destruct (mkdir d fs) as [[[]|e1] fs1] eqn:Hmkdir.
  - destruct (write_text _ MAGIC_COMMENT fs1) as [[[]|e2] fs2] eqn:Hwrite.
    + apply IH.
    + intros [= <- _]. by eapply write_text_not_config.
  - intros [= <- _]. by eapply mkdir_not_config.
Qed.

Lemma materialize_not_config (source_root destination_root : Path)
    (items : list (Path * string)) :
  ∀ entries fs fs' e,
    materialize MAGIC_COMMENT source_root destination_root items entries fs
    = (Raise e, fs') →
    is_config_error e = false.
Proof.
  induction items as [|[filepath content] items IH]; intros entries fs fs' e; [done|].
  cbn [materialize]. unfold relative_to at 1.
  destruct (bool_decide _ && is_prefix _ _); [|by intros [= <- _]].
  destruct (create_dirs _ _ _ entries fs) as [[entries1|e1] fs1] eqn:Hdirs.
  - destruct (write_text _ content fs1) as [[[]|e2] fs2] eqn:Hwrite.
    + apply IH.
    + intros [= <- _]. by eapply write_text_not_config.
  - intros [= <- _]. by eapply create_dirs_not_config.
Qed.

Lemma write_gitignore_not_config (destination_root : Path) (entries : list string)
    (fs fs' : FS) (e : exn) :
  write_gitignore destination_root entries fs = (Raise e, fs') →
  is_config_error e = false.
Proof.
  unfold write_gitignore. destruct entries as [|x entries]; [done|].
  destruct (exists_ fs _).
  - destruct (read_text _ fs) as [[text|e1] fs1] eqn:Hread.
    + apply write_text_not_config.
    + intros [= <- _]. by eapply read_text_not_config.
  - apply write_text_not_config.
Qed.

(** Discovery only removes entries. *)
Lemma unlink_shrinks (p : Path) (fs fs' : FS) (r : result ()) :
  unlink p fs = (r, fs') → fs' ⊆ fs.
Proof.
  unfold unlink. destruct (fs !! p) as [[content|]|]; intros [= _ <-];
    [apply delete_subseteq | done | done].
Qed.

Lemma discover_loop_shrinks (root : Path) (found : list Path) :
  ∀ acc fs r fs',
    discover_loop MAGIC_COMMENT root found acc fs = (r, fs') → fs' ⊆ fs.
Proof.
  induction found as [|f found IH]; intros acc fs r fs'.
  - by intros [= _ <-].
  - cbn [discover_loop].
    destruct (existsb skipped_part _); [apply IH|].
    destruct (String.eqb _ "__init__.py"); [|apply IH].
    destruct (read_text _ fs) as [[text|e] fs1] eqn:Hread;
      apply read_text_state in Hread as ->; [|by intros [= _ <-]].
    destruct (String.prefix MAGIC_COMMENT text); [|apply IH].
    destruct (unlink _ fs) as [[[]|e] fs1] eqn:Hunlink;
      apply unlink_shrinks in Hunlink.
    + intros Hrest%IH. by etrans.
    + by intros [= _ <-].
Qed.

Lemma collect_managed_shrinks (root : Path) (fs fs' : FS)
    (r : result (list (Path * string))) :
  collect_managed MAGIC_COMMENT griffe_aliases root fs = (r, fs') → fs' ⊆ fs.
Proof.
  unfold collect_managed, collect_aliases, _discover_python_modules.
  destruct (discover_loop _ _ _ _ fs) as [[files|e] fs1] eqn:Hdiscover;
    apply discover_loop_shrinks in Hdiscover; by intros [= _ <-].
Qed.

(** The bound on the loop over the missing parents is never reached. *)
Lemma missing_parents_fuel (fs : FS) (fuel : nat) :
  ∀ p extra,
    length p.2 < fuel →
    missing_parents (fuel + extra) fs p = missing_parents fuel fs p.
Proof.
  induction fuel as [|fuel IH]; intros p extra Hlen; [lia|].
  cbn [Nat.add missing_parents].
  destruct (exists_ fs p) eqn:Hexists; [done|]. f_equal.
  apply IH. unfold exists_ in Hexists.
  destruct p as [anchored parts]. cbn [snd fst parent] in *.
  destruct parts as [|x parts] using rev_ind; [done|].
  rewrite removelast_last. rewrite length_app in Hlen. simpl in Hlen. lia.
Qed.

Lemma mkdir_parents_fuel (fuel : nat) :
  ∀ p fs,
    length p.2 < fuel → (mkdir_parents fuel p fs).1 ≠ Raise RecursionError.
Proof.
  induction fuel as [|fuel IH]; intros p fs Hlen; [lia|].
  cbn [mkdir_parents].
  destruct (exists_ fs p) eqn:Hexists; [by destruct (is_dir fs p)|].
  assert (∀ fs1, (mkdir p fs1).1 ≠ Raise RecursionError) as Hmkdir.
  { intros fs1. unfold mkdir. by repeat case_match. }
  destruct (negb (exists_ fs (parent p))); [|done].
  assert (length (parent p).2 < fuel) as Hparent.
  { unfold exists_ in Hexists. destruct p as [anchored parts].
    cbn [snd fst parent] in *.
    destruct parts as [|x parts _] using rev_ind; [done|].
    rewrite removelast_last. rewrite length_app in Hlen. simpl in Hlen. lia. }
  specialize (IH (parent p) fs Hparent).
  destruct (mkdir_parents fuel (parent p) fs) as [[[]|e] fs1]; [done|].
  intros [= ->]. done.
Qed.

(** C3.  When [generate_aliases] raises a configuration error, the error
    is the one raised by the validation in [collect_managed], and the
    file system is the one [collect_managed] left: every entry in it was
    there before the run with the same content, so no alias module, no
    package marker and no ignore list has been written. *)
Theorem generate_aliases_fails_before_writing
    (source_root destination_root : Path) (fs fs' : FS) (msg : string) :
  generate_aliases MAGIC_COMMENT griffe_aliases source_root destination_root fs
  = (Raise (HopsworksApigenError msg), fs') →
  collect_managed MAGIC_COMMENT griffe_aliases source_root fs
  = (Raise (HopsworksApigenError msg), fs')
  ∧ (∀ p n, fs' !! p = Some n → fs !! p = Some n).
Proof.
  unfold generate_aliases.
  destruct (collect_managed _ _ source_root fs) as [[managed|e] fs1] eqn:Hcollect.
  - destruct (materialize _ _ _ managed [] fs1) as [[entries|e1] fs2] eqn:Hmat.
    + destruct (write_gitignore _ entries fs2) as [[[]|e2] fs3] eqn:Hignore; [done|].
      intros [= -> _]. by apply write_gitignore_not_config in Hignore.
    + intros [= -> _]. by apply materialize_not_config in Hmat.
  - intros [= -> <-]. split; [done|].
    apply collect_managed_shrinks in Hcollect.
    intros p n Hp. by eapply lookup_weaken.
Qed.

End materialisation.

Section materialisation_runs.
Import Setuptools Example.

Lemma generate_aliases_fails_before_writing_witness :
  collect_managed magic scan_conflict here tree
  = (Raise (HopsworksApigenError
              "src.b.f is attempted to be exported as f in api, but the package already contains this alias, set to src.a.f."),
     tree)
  ∧ (∀ p n, tree !! p = Some n → tree !! p = Some n).
Proof.
  apply (generate_aliases_fails_before_writing magic scan_conflict here
           (false, ["build"; "aliases"]) tree tree).
  by_computation.
Defined.

(** C4.  The call that [build_aliases.run] makes, on a tree in which
    the destination file build/aliases/api/__init__.py exists and does
    not start with the magic marker: [generate_aliases] replaces its
    content, where the claim, and the guard of [install_aliases.run],
    leave such a file unchanged. *)
Lemma generate_aliases_overwrites_hand_written :
  tree !! (false, ["build"; "aliases"; "api"; "__init__.py"]) = Some (File "x = 1")
  ∧ String.prefix magic "x = 1" = false
  ∧ (generate_aliases magic scan_one here (false, ["build"; "aliases"]) tree).1
    = Ok [((false, ["api"; "__init__.py"]),
           magic +:+ "import src.a" +:+ nl +:+ "f = src.a.f" +:+ nl)]
  ∧ (generate_aliases magic scan_one here (false, ["build"; "aliases"]) tree).2
      !! (false, ["build"; "aliases"; "api"; "__init__.py"])
    = Some (File (magic +:+ "import src.a" +:+ nl +:+ "f = src.a.f" +:+ nl)).
Proof. split; [|split; [|split]]; by_computation. Qed.

End materialisation_runs.

(** ** Installation *)

Section installation.
Import Setuptools.
Variable MAGIC_COMMENT : string.

Lemma keeps_refl (fs : FS) : keeps MAGIC_COMMENT fs fs.
Proof. by intros q content. Qed.

Lemma keeps_trans (fs1 fs2 fs3 : FS) : keeps MAGIC_COMMENT fs1 fs2 → keeps MAGIC_COMMENT fs2 fs3 → keeps MAGIC_COMMENT fs1 fs3.
Proof. intros H12 H23 q content Hq Hm. apply H23; [by apply H12 | done]. Qed.

Lemma exists_false_lookup (fs : FS) (p : Path) : exists_ fs p = false → fs !! p = None.
Proof.
  unfold exists_. case_match; [done|].
  intros Hdec%bool_decide_eq_false. by apply eq_None_not_Some.
Qed.

Lemma mkdir_keeps (p : Path) (fs fs' : FS) (r : result ()) :
  mkdir p fs = (r, fs') → keeps MAGIC_COMMENT fs fs'.
Proof.
  unfold mkdir. destruct (exists_ fs p) eqn:Hex.
  - intros [= _ <-]. apply keeps_refl.
  - repeat case_match; intros [= _ <-]; try apply keeps_refl.
    intros q content Hq _. apply exists_false_lookup in Hex.
    rewrite lookup_insert_ne; [done | congruence].
Qed.

Lemma mkdir_parents_keeps (fuel : nat) :
  ∀ p fs fs' r, mkdir_parents fuel p fs = (r, fs') → keeps MAGIC_COMMENT fs fs'.
Proof.
  induction fuel as [|fuel IH]; intros p fs fs' r.
  - intros [= _ <-]. apply keeps_refl.
  - cbn [mkdir_parents]. case_match.
    + case_match; intros [= _ <-]; apply keeps_refl.
    + case_match; [|apply mkdir_keeps].
      destruct (mkdir_parents fuel (parent p) fs) as [[[]|e] fs1] eqn:Hparents.
      * intros Hmkdir%mkdir_keeps. eapply keeps_trans; [by eapply IH | done].
      * intros [= _ <-]. by eapply IH.
Qed.

(** Writing to [p] keeps everything when [p] is absent or holds a
    generated file. *)
Lemma write_text_keeps (p : Path) (content : string) (fs fs' : FS) (r : result ()) :
  (fs !! p = None ∨ ∃ text, fs !! p = Some (File text)
                            ∧ String.prefix MAGIC_COMMENT text = true) →
  write_text p content fs = (r, fs') → keeps MAGIC_COMMENT fs fs'.
Proof.
  intros Hp. unfold write_text.
  repeat case_match; intros [= _ <-]; try apply keeps_refl.
  intros q c Hq Hm. rewrite lookup_insert_ne; [done|].
  intros <-. destruct Hp as [Hp | (text & Hp & Htext)]; congruence.
Qed.

Lemma is_dir_false_of_file (fs : FS) (p : Path) :
  (fs !! p = None ∨ ∃ text, fs !! p = Some (File text)) → p.2 ≠ [] →
  is_dir fs p = false.
Proof.
  intros Hp Hparts. unfold is_dir. case_match; [done|].
  apply bool_decide_eq_false. destruct Hp as [Hp | [text Hp]]; congruence.
Qed.

Lemma shutil_copy_keeps (src dst : Path) (fs fs' : FS) (r : result ()) :
  dst.2 ≠ [] →
  (fs !! dst = None ∨ ∃ text, fs !! dst = Some (File text)
                              ∧ String.prefix MAGIC_COMMENT text = true) →
  shutil_copy src dst fs = (r, fs') → keeps MAGIC_COMMENT fs fs'.
Proof.
  intros Hparts Hdst. unfold shutil_copy.
  rewrite is_dir_false_of_file;
    [|destruct Hdst as [? | (text & ? & _)]; [by left | right; by exists text]|done].
  case_match; [intros [= _ <-]; apply keeps_refl|].
  destruct (read_text src fs) as [[content|e] fs1] eqn:Hread;
    apply read_text_state in Hread as ->.
  - by apply write_text_keeps.
  - intros [= _ <-]. apply keeps_refl.
Qed.

Lemma exists_true_parts (fs : FS) (p : Path) :
  exists_ fs p = false → p.2 ≠ [].
Proof. unfold exists_. by case_match. Qed.

Lemma read_text_ok (p : Path) (fs fs' : FS) (text : string) :
  read_text p fs = (Ok text, fs') → p.2 ≠ [] ∧ fs !! p = Some (File text).
Proof.
  unfold read_text. repeat case_match; intros [= <- _]; subst; split; congruence.
Qed.

Lemma install_loop_keeps (aliases_dir install_lib : Path) (found : list Path) :
  ∀ fs fs' r,
    install_loop MAGIC_COMMENT aliases_dir install_lib found fs = (r, fs') →
    keeps MAGIC_COMMENT fs fs'.
Proof.
  induction found as [|src_file found IH]; intros fs fs' r.
  - intros [= _ <-]. apply keeps_refl.
  - cbn [install_loop]. unfold relative_to at 1.
    case_match; [|intros [= _ <-]; apply keeps_refl].
    match goal with
    | |- context [mkdir_parents ?n ?p fs] =>
        destruct (mkdir_parents n p fs) as [[[]|e] fs1] eqn:Hparents
    end; apply mkdir_parents_keeps in Hparents;
      [|intros [= _ <-]; done].
    destruct (exists_ fs1 _) eqn:Hex; cbn [negb].
    + match goal with
      | |- context [read_text ?p fs1] =>
          destruct (read_text p fs1) as [[text|e] fs2] eqn:Hread
      end; pose proof (read_text_state _ _ _ _ Hread) as ->;
        [|intros [= _ <-]; done].
      apply read_text_ok in Hread as [Hparts Hfile].
      destruct (String.prefix MAGIC_COMMENT text) eqn:Htext.
      * match goal with
        | |- context [shutil_copy ?s ?d fs1] =>
            destruct (shutil_copy s d fs1) as [[[]|e] fs2] eqn:Hcopy
        end; apply shutil_copy_keeps in Hcopy; [| done | by eauto | | done | by eauto].
        -- intros Hrest%IH. eauto using keeps_trans.
        -- intros [= _ <-]. eauto using keeps_trans.
      * intros Hrest%IH. eauto using keeps_trans.
    + pose proof (exists_true_parts _ _ Hex) as Hparts.
      apply exists_false_lookup in Hex.
      match goal with
      | |- context [shutil_copy ?s ?d fs1] =>
          destruct (shutil_copy s d fs1) as [[[]|e] fs2] eqn:Hcopy
      end; apply shutil_copy_keeps in Hcopy; [| done | by left | | done | by left].
      * intros Hrest%IH. eauto using keeps_trans.
      * intros [= _ <-]. eauto using keeps_trans.
Qed.

Lemma install_aliases_keeps
    (aliases_dir install_lib q : Path) (content : string) (fs : FS) :
  fs !! q = Some (File content) →
  String.prefix MAGIC_COMMENT content = false →
  (install_aliases_run MAGIC_COMMENT aliases_dir install_lib fs).2 !! q
  = Some (File content).
Proof.
  intros Hq Hcontent. unfold install_aliases_run.
  case_match; [done|].
  destruct (install_loop _ _ _ _ fs) as [r fs'] eqn:Hloop.
  by apply (install_loop_keeps _ _ _ _ _ _ Hloop).
Qed.

(** A round of the loop of [generate_aliases] whose destination is an
    existing file replaces its content, whatever it is. *)
Lemma materialize_overwrites (source_root destination_root filepath rel q : Path)
    (old text : string) (rest : list (Path * string)) (entries : list string) (fs : FS) :
  fs !! q = Some (File old) →
  relative_to filepath source_root = Ok rel →
  joinpath destination_root rel = q →
  q.2 ≠ [] → exists_ fs (parent q) = true → is_dir fs (parent q) = true →
  materialize MAGIC_COMMENT source_root destination_root ((filepath, text) :: rest)
    entries fs
  = materialize MAGIC_COMMENT source_root destination_root rest entries
      (<[q := File text]> fs).
Proof.
  intros Hq Hrel Hdest Hparts Hexists Hdir.
  cbn [materialize]. rewrite Hrel, Hdest. cbn [missing_parents].
  rewrite Hexists. cbn [reverse rev_append create_dirs].
  unfold write_text.
  rewrite (is_dir_false_of_file fs q), Hexists, Hdir; [done | by eauto | done].
Qed.

(** X21.  Installation leaves hand-written files alone: a file that
    exists and does not start with the magic marker has the same content
    after [install_aliases.run], whatever the build directory holds and
    whether the run returns or raises. *)
Theorem install_aliases_keeps_hand_written
    (aliases_dir install_lib q : Path) (content : string) (fs : FS) :
  fs !! q = Some (File content) →
  String.prefix MAGIC_COMMENT content = false →
  (install_aliases_run MAGIC_COMMENT aliases_dir install_lib fs).2 !! q
  = Some (File content).
Proof. apply install_aliases_keeps. Qed.

End installation.

Section installation_runs.
Import Setuptools Example.

Lemma install_aliases_keeps_hand_written_witness :
  (install_aliases_run magic (false, ["build"; "aliases"]) (false, ["lib"]) build_tree).2
    !! (false, ["lib"; "api"; "__init__.py"])
  = Some (File "from .impl import *").
Proof.
  apply (install_aliases_keeps_hand_written magic (false, ["build"; "aliases"])
           (false, ["lib"]) (false, ["lib"; "api"; "__init__.py"])
           "from .impl import *" build_tree);
    by_computation.
Defined.

End installation_runs.

(** ** Deprecating a class *)

Section deprecate_class.
Import Aliases Errors Deprecation.

Lemma valid_params_message (P : params) (name : string) :
  valid_params P →
  ∃ message,
    generate_deprecation_message name (deprecated_by P) (available_until P) = Ok message.
Proof.
  intros [Hrecs Hversion]. unfold generate_deprecation_message.
  replace (truthy (available_until P)
           && negb (re_match_major_minor (default "" (available_until P))))
    with false.
  - destruct (deprecated_by P); [done|]. by eexists.
  - destruct Hversion as [-> | ->]; [done|]. by rewrite andb_false_r.
Qed.

Lemma truthy_member_name (name n : string) :
  truthy (Some (name +:+ "." +:+ n)) = true.
Proof. by destruct name. Qed.

Lemma resolve_member_name (P : params) (nameOf : name_registry) (h : heap)
    (name n : string) (m : nat) :
  resolve_name (with_public_name P (name +:+ "." +:+ n)) nameOf h m
  = Ok (name +:+ "." +:+ n).
Proof.
  unfold resolve_name. cbn [public_name with_public_name].
  by rewrite !truthy_member_name.
Qed.

Lemma isfunction_not_class (h : heap) (v : nat) :
  isfunction h v = true → isclass h v = false.
Proof. unfold isfunction, isclass. by destruct (h !! v) as [[]|]. Qed.

Lemma deprecate_function (fuel : nat) (P : params) (nameOf : name_registry)
    (h : heap) (m : nat) (name message : string) :
  isfunction h m = true →
  resolve_name P nameOf h m = Ok name →
  generate_deprecation_message name (deprecated_by P) (available_until P) = Ok message →
  deprecate (S fuel) P nameOf m h
  = (Ok (length h), h ++ [DeprecatedF m message (default "" (qualname_of h m))]).
Proof.
  intros Hfun Hname Hmessage. cbn [deprecate].
  by rewrite Hname, (isfunction_not_class _ _ Hfun), Hfun, Hmessage.
Qed.

Lemma find_attr_in_dir (h : heap) (n : string) (a : attr) (classes : list nat) :
  find_attr h classes n = Some a →
  n ∈ foldr (λ k acc, dom (namespace_of h k) ∪ acc) (∅ : gset string) classes.
Proof.
  induction classes as [|k classes IH]; [done|]. cbn [find_attr foldr].
  destruct (namespace_of h k !! n) as [a'|] eqn:Hk.
  - intros _. apply elem_of_union_l. by eapply elem_of_dom_2.
  - intros Hrest. apply elem_of_union_r. by apply IH.
Qed.

Lemma function_member_listed (h : heap) (c : nat) (n : string) (f : nat) :
  function_member h c n f ↔ (n, f) ∈ getmembers_isfunction h c.
Proof.
  unfold getmembers_isfunction. rewrite list_elem_of_omap. split.
  - intros [Hget Hfun]. exists n. split.
    + unfold dir. rewrite (stable_sort_perm String.leb), elem_of_elements.
      unfold getattr in Hget.
      destruct (find_attr h (mro h c) n) as [a|] eqn:Hfind; [|done].
      by eapply find_attr_in_dir.
    + by rewrite Hget, Hfun.
  - intros (x & _ & Hx).
    destruct (getattr h c x) as [[v| |]|] eqn:Hget; try done.
    destruct (isfunction h v) eqn:Hfun; [|done].
    by injection Hx as -> ->.
Qed.

Variables (P : params) (nameOf : name_registry) (h0 : heap) (c : nat).
Variables (q : string) (tail : list nat) (ns0 : gmap string attr).
Variables (name : string) (fuel : nat).
Hypothesis Hclass : h0 !! c = Some (Class q tail ns0).
Hypothesis Hvalid : valid_params P.

Lemma class_in_heap : c < length h0.
Proof using Hclass. by eapply lookup_lt_Some. Qed.

Lemma member_in_heap (n : string) (m : nat) :
  function_member h0 c n m → m < length h0 ∧ m ≠ c.
Proof using Hclass.
  intros [_ Hfun]. unfold isfunction in Hfun.
  destruct (h0 !! m) as [o|] eqn:Hm; [|done]. split.
  - by eapply lookup_lt_Some.
  - intros ->. rewrite Hclass in Hm. by injection Hm as <-.
Qed.

Lemma class_invariant_start : class_invariant P name h0 c q tail h0.
Proof using Hclass.
  split; [|split; [|split]]; [| done | done |].
  - exists ns0. split; [done|]. intros n. left.
    unfold namespace_of. by rewrite Hclass.
  - intros i Hi. unfold isclass. by rewrite lookup_ge_None_2.
Qed.

(** One round of the loop: the wrapper is allocated at the end of the
    heap and the name is rebound to it. *)
Lemma class_invariant_step (h : heap) (n : string) (m : nat) :
  class_invariant P name h0 c q tail h →
  function_member h0 c n m →
  ∃ h1,
    deprecate (S fuel) (with_public_name P (name +:+ "." +:+ n)) nameOf m h
    = (Ok (length h), h1)
    ∧ class_invariant P name h0 c q tail (setattr h1 c n (length h))
    ∧ wrapped P name h0 c (setattr h1 c n (length h)) n
    ∧ (∀ n', wrapped P name h0 c h n' →
             wrapped P name h0 c (setattr h1 c n (length h)) n').
Proof using Hclass Hvalid.
  intros ((ns & Hc & Hns) & Hlen & Hsame & Hnew) Hmember.
  pose proof class_in_heap as Hc0.
  destruct (member_in_heap n m Hmember) as [Hm0 Hmc].
  pose proof Hmember as [_ Hfun0].
  assert (h !! m = h0 !! m) as Hm by by apply Hsame.
  assert (isfunction h m = true) as Hfun by (unfold isfunction; by rewrite Hm).
  assert (qualname_of h m = qualname_of h0 m) as Hq
    by (unfold qualname_of; by rewrite Hm).
  destruct (valid_params_message P (name +:+ "." +:+ n) Hvalid) as [message Hmessage].
  eexists. split.
  { apply (deprecate_function fuel _ nameOf h m (name +:+ "." +:+ n) message);
      [done | apply resolve_member_name | done]. }
  rewrite Hq.
  set (W := DeprecatedF m message (default "" (qualname_of h0 m))).
  assert ((h ++ [W]) !! c = Some (Class q tail ns)) as Hc1
    by (rewrite lookup_app_l by lia; done).
  unfold setattr. rewrite Hc1.
  set (h2 := <[c:=Class q tail (<[n:=AttrObj (length h)]> ns)]> (h ++ [W])).
  assert (h2 !! c = Some (Class q tail (<[n:=AttrObj (length h)]> ns))) as Hc2.
  { apply list_lookup_insert_eq. rewrite length_app. simpl. lia. }
  assert (∀ i, i ≠ c → i < length h → h2 !! i = h !! i) as Hold.
  { intros i Hic Hi. unfold h2.
    rewrite list_lookup_insert_ne by done. by rewrite lookup_app_l. }
  assert (h2 !! length h = Some W) as Hw.
  { unfold h2. rewrite list_lookup_insert_ne by lia. by apply list_lookup_middle. }
  assert (wrapped P name h0 c h2 n) as Hwrapped.
  { exists m, (length h), message. split; [done|]. split; [|done].
    unfold namespace_of. rewrite Hc2. apply lookup_insert_eq. }
  assert (∀ n', wrapped P name h0 c h n' → wrapped P name h0 c h2 n') as Hkeep.
  { intros n' (f & w & msg & Hf & Hbound & Hobj & Hmsg).
    destruct (decide (n' = n)) as [->|Hn]; [done|].
    exists f, w, msg. split; [done|]. split; [|split; [|done]].
    - unfold namespace_of in *. rewrite Hc2. rewrite Hc in Hbound.
      by rewrite lookup_insert_ne.
    - rewrite Hold; [done | | by eapply lookup_lt_Some].
      intros ->. rewrite Hc in Hobj. discriminate. }
  split; [|done].
  split; [|split; [|split]].
  - exists (<[n:=AttrObj (length h)]> ns). split; [done|].
    intros n'. destruct (decide (n' = n)) as [->|Hn]; [by right|].
    rewrite lookup_insert_ne by done.
    destruct (Hns n') as [? | ?]; [by left | right; by apply Hkeep].
  - unfold h2. rewrite length_insert, length_app. lia.
  - intros i Hi Hic. rewrite Hold; [by apply Hsame | done | lia].
  - intros i Hi. unfold isclass.
    destruct (decide (i < length h)) as [Hlt|Hge].
    + rewrite Hold; [by apply Hnew | lia | done].
    + unfold h2. rewrite list_lookup_insert_ne by lia.
      destruct (decide (i = length h)) as [->|Hne].
      * by rewrite list_lookup_middle.
      * rewrite lookup_ge_None_2; [done|]. rewrite length_app. simpl. lia.
Qed.

Lemma wrap_members_invariant (methods : list (string * nat)) :
  ∀ h,
    (∀ n m, (n, m) ∈ methods → function_member h0 c n m) →
    class_invariant P name h0 c q tail h →
    ∃ h',
      wrap_members
        (λ n m, deprecate (S fuel) (with_public_name P (name +:+ "." +:+ n)) nameOf m)
        c methods h = (Ok (), h')
      ∧ class_invariant P name h0 c q tail h'
      ∧ (∀ n m, (n, m) ∈ methods → wrapped P name h0 c h' n)
      ∧ (∀ n, wrapped P name h0 c h n → wrapped P name h0 c h' n).
Proof using Hclass Hvalid.
  induction methods as [|[n m] methods IH]; intros h Hmembers Hinv.
  - exists h. split; [done|]. split; [done|]. split; [|done].
    intros n m Hin. by apply elem_of_nil in Hin.
  - destruct (class_invariant_step h n m Hinv) as (h1 & Hdep & Hinv2 & Hn & Hkeep).
    { apply Hmembers. by left. }
    destruct (IH (setattr h1 c n (length h))) as (h' & Hloop & Hinv' & Hrest & Hkeep');
      [intros n' m' Hin; apply Hmembers; by right | done |].
    exists h'. cbn [wrap_members]. rewrite Hdep. split; [done|]. split; [done|].
    split; [|by auto].
    intros n' m' [[= -> ->] | Hin]%elem_of_cons; [by apply Hkeep' | by eapply Hrest].
Qed.

End deprecate_class.

Section deprecate_class_result.
Import Aliases Errors Deprecation.

Lemma resolve_name_class (P : params) (nameOf : name_registry) (h : heap) (c : nat)
    (q : string) (tail : list nat) (ns : gmap string attr) :
  h !! c = Some (Class q tail ns) →
  ∃ name, resolve_name P nameOf h c = Ok name.
Proof.
  intros Hclass. unfold resolve_name, hashable, qualname_of. rewrite Hclass.
  destruct (truthy (public_name P)) eqn:Hexplicit.
  - rewrite Hexplicit. by eexists.
  - destruct (truthy (dict_get (PyObj c) nameOf)); by eexists.
Qed.

Lemma deprecate_unfold (fuel : nat) (P : params) (nameOf : name_registry)
    (symbol : nat) (h : heap) :
  deprecate (S fuel) P nameOf symbol h
  = match resolve_name P nameOf h symbol with
    | Raise e => (Raise e, h)
    | Ok name =>
        if isclass h symbol then
          match wrap_members
                  (λ n m, deprecate fuel (with_public_name P (name +:+ "." +:+ n)) nameOf m)
                  symbol (getmembers_isfunction h symbol) h with
          | (Ok _, h') => (Ok symbol, h')
          | (Raise e, h') => (Raise e, h')
          end
        else if isfunction h symbol then
          match generate_deprecation_message name (deprecated_by P) (available_until P) with
          | Ok message =>
              (Ok (length h),
               h ++ [DeprecatedF symbol message (default "" (qualname_of h symbol))])
          | Raise e => (Raise e, h)
          end
        else (Raise (HopsworksApigenError unsupported_error), h)
    end.
Proof. reflexivity. Qed.

Lemma find_attr_unchanged (h h' : heap) (n : string) (classes : list nat) :
  (∀ k, namespace_of h' k !! n = namespace_of h k !! n) →
  find_attr h' classes n = find_attr h classes n.
Proof.
  intros Hsame. induction classes as [|k classes IH]; [done|].
  cbn [find_attr]. by rewrite Hsame, IH.
Qed.

Lemma deprecate_class_valid (P : params) (nameOf : name_registry) (h : heap)
    (c : nat) (q : string) (tail : list nat) (ns : gmap string attr) (fuel : nat) :
  h !! c = Some (Class q tail ns) →
  valid_params P →
  ∃ name h',
    resolve_name P nameOf h c = Ok name
    ∧ deprecate (S (S fuel)) P nameOf c h = (Ok c, h')
    ∧ (∃ ns', h' !! c = Some (Class q tail ns'))
    ∧ (∀ n f, function_member h c n f →
         ∃ w message,
           getattr h' c n = Some (GotObj w)
           ∧ h' !! w = Some (DeprecatedF f message (default "" (qualname_of h f)))
           ∧ generate_deprecation_message (name +:+ "." +:+ n)
               (deprecated_by P) (available_until P) = Ok message)
    ∧ (∀ n, (∀ f, ¬ function_member h c n f) → getattr h' c n = getattr h c n)
    ∧ (∀ i, i < length h → i ≠ c → h' !! i = h !! i).
Proof.
  intros Hclass Hvalid.
  destruct (resolve_name_class P nameOf h c q tail ns Hclass) as [name Hname].
  destruct (wrap_members_invariant P nameOf h c q tail ns name fuel Hclass Hvalid
              (getmembers_isfunction h c) h)
    as (h' & Hloop & ((ns' & Hc' & Hns') & Hlen & Hsame & Hnew) & Hwrapped & _).
  { intros n m. by rewrite function_member_listed. }
  { by apply class_invariant_start with ns. }
  exists name, h'. split; [done|]. split.
  { rewrite (deprecate_unfold (S fuel)), Hname. unfold isclass.
    by rewrite Hclass, Hloop. }
  assert (mro h' c = c :: tail) as Hmro' by (unfold mro; by rewrite Hc').
  assert (mro h c = c :: tail) as Hmro by (unfold mro; by rewrite Hclass).
  assert (namespace_of h' c = ns') as Hspace' by (unfold namespace_of; by rewrite Hc').
  split; [by exists ns'|]. split; [|split; [|done]].
  - intros n f Hmember.
    destruct (Hwrapped n f) as (f' & w & message & [Hget' Hfun'] & Hbound & Hobj & Hmessage).
    { by apply function_member_listed. }
    destruct Hmember as [Hget Hfun].
    assert (f' = f) as -> by congruence.
    exists w, message. split; [|done].
    unfold getattr. rewrite Hmro'. cbn [find_attr]. by rewrite Hbound.
  - intros n Hnot. unfold getattr. rewrite Hmro', Hmro.
    rewrite (find_attr_unchanged h h' n (c :: tail)); [done|].
    intros k. destruct (decide (k = c)) as [->|Hkc].
    + rewrite Hspace'.
      destruct (Hns' n) as [? | (f & _ & _ & Hf & _)]; [done | by destruct (Hnot f)].
    + destruct (decide (k < length h)) as [Hk|Hk].
      * unfold namespace_of. by rewrite Hsame.
      * assert (isclass h' k = false) as Hk' by (apply Hnew; lia).
        unfold isclass in Hk'. unfold namespace_of.
        rewrite (lookup_ge_None_2 h k) by lia.
        by destruct (h' !! k) as [[]|].
Qed.


Lemma deprecate_class_without_functions (P : params) (nameOf : name_registry)
    (h : heap) (c : nat) (q : string) (tail : list nat) (ns : gmap string attr)
    (fuel : nat) :
  h !! c = Some (Class q tail ns) →
  getmembers_isfunction h c = [] →
  ∃ name h',
    resolve_name P nameOf h c = Ok name
    ∧ deprecate (S (S fuel)) P nameOf c h = (Ok c, h')
    ∧ (∃ ns', h' !! c = Some (Class q tail ns'))
    ∧ (∀ n f, function_member h c n f →
         ∃ w message,
           getattr h' c n = Some (GotObj w)
           ∧ h' !! w = Some (DeprecatedF f message (default "" (qualname_of h f)))
           ∧ generate_deprecation_message (name +:+ "." +:+ n)
               (deprecated_by P) (available_until P) = Ok message)
    ∧ (∀ n, (∀ f, ¬ function_member h c n f) → getattr h' c n = getattr h c n)
    ∧ (∀ i, i < length h → i ≠ c → h' !! i = h !! i).
Proof.
  intros Hclass Hnone.
  destruct (resolve_name_class P nameOf h c q tail ns Hclass) as [name Hname].
  exists name, h. split; [done|]. split.
  { rewrite deprecate_unfold, Hname. unfold isclass. by rewrite Hclass, Hnone. }
  split; [by exists ns|]. split; [|done].
  intros n f Hmember%function_member_listed. rewrite Hnone in Hmember.
  by apply elem_of_nil in Hmember.
Qed.

(** C10 (amended).  Applied to a class, with parameters from which the
    message can be built (or to a class without function members),
    [deprecate] returns the class object it was given.  The class is still in place,
    with its name and bases; every name under which [getattr] finds a
    function, inherited ones included, is rebound to a deprecation
    wrapper of that function whose message reports the resolved public
    name of the class, a dot and the member name; every other attribute
    of the class reads as before; and the other objects are untouched. *)
Theorem deprecate_class_in_place (P : params) (nameOf : name_registry) (h : heap)
    (c : nat) (q : string) (tail : list nat) (ns : gmap string attr) (fuel : nat) :
  h !! c = Some (Class q tail ns) →
  valid_params P ∨ getmembers_isfunction h c = [] →
  ∃ name h',
    resolve_name P nameOf h c = Ok name
    ∧ deprecate (S (S fuel)) P nameOf c h = (Ok c, h')
    ∧ (∃ ns', h' !! c = Some (Class q tail ns'))
    ∧ (∀ n f, function_member h c n f →
         ∃ w message,
           getattr h' c n = Some (GotObj w)
           ∧ h' !! w = Some (DeprecatedF f message (default "" (qualname_of h f)))
           ∧ generate_deprecation_message (name +:+ "." +:+ n)
               (deprecated_by P) (available_until P) = Ok message)
    ∧ (∀ n, (∀ f, ¬ function_member h c n f) → getattr h' c n = getattr h c n)
    ∧ (∀ i, i < length h → i ≠ c → h' !! i = h !! i).
Proof.
  intros Hclass [Hvalid | Hnone].
  - by apply deprecate_class_valid with ns.
  - by apply deprecate_class_without_functions with ns.
Qed.

Lemma deprecate_class_in_place_witness :
  ∃ name h',
    resolve_name ClassExample.replaced_by ClassExample.recorded ClassExample.objects 3
    = Ok name
    ∧ deprecate 2 ClassExample.replaced_by ClassExample.recorded 3 ClassExample.objects
      = (Ok 3, h')
    ∧ (∃ ns', h' !! 3 = Some (Class "Widget" [2] ns'))
    ∧ (∀ n f, function_member ClassExample.objects 3 n f →
         ∃ w message,
           getattr h' 3 n = Some (GotObj w)
           ∧ h' !! w = Some (DeprecatedF f message
                               (default "" (qualname_of ClassExample.objects f)))
           ∧ generate_deprecation_message (name +:+ "." +:+ n)
               (deprecated_by ClassExample.replaced_by)
               (available_until ClassExample.replaced_by) = Ok message)
    ∧ (∀ n, (∀ f, ¬ function_member ClassExample.objects 3 n f) →
            getattr h' 3 n = getattr ClassExample.objects 3 n)
    ∧ (∀ i, i < length ClassExample.objects → i ≠ 3 →
            h' !! i = ClassExample.objects !! i).
Proof.
  apply (deprecate_class_in_place ClassExample.replaced_by ClassExample.recorded
           ClassExample.objects 3 "Widget" [2] ClassExample.widget_namespace 0).
  - reflexivity.
  - left. split; [discriminate | right; reflexivity].
Defined.

(** C10, as stated, fails: with no recommendation, decorating the class
    [Widget], which has the function members [run] and [show], raises
    the configuration error when the first member is wrapped; no class
    object is returned, whatever the bound on the recursion. *)
Lemma deprecate_class_raises :
  isclass ClassExample.objects 3 = true
  ∧ getmembers_isfunction ClassExample.objects 3
    = [("run"%string, 0); ("show"%string, 1)]
  ∧ ∀ fuel,
      deprecate (S (S fuel)) ClassExample.without_recommendation ClassExample.recorded 3
        ClassExample.objects
      = (Raise (HopsworksApigenError recommendation_error), ClassExample.objects).
Proof.
  split; [reflexivity|]. split; [by_computation|]. intros fuel. by_computation.
Qed.

End deprecate_class_result.

(** * Further properties *)

(** ** Sorting *)

Section sorting_properties.
Context {A : Type} (leb : A → A → bool).
Hypothesis leb_total : ∀ x y, leb x y = true ∨ leb y x = true.

Lemma insert_sorted_hdrel (a x : A) (l : list A) :
  leb a x = true → HdRel (λ u v, leb u v = true) a l →
  HdRel (λ u v, leb u v = true) a (insert_sorted leb x l).
Proof.
  intros Hax Hhd. destruct l as [|y l]; cbn [insert_sorted].
  - by constructor.
  - destruct (leb x y); constructor; [done|]. by inversion Hhd.
Qed.

Lemma insert_sorted_sorted (x : A) (l : list A) :
  Sorted (λ u v, leb u v = true) l →
  Sorted (λ u v, leb u v = true) (insert_sorted leb x l).
Proof using leb_total.
  induction l as [|y l IH]; intros Hsorted; cbn [insert_sorted].
  - by repeat constructor.
  - destruct (leb x y) eqn:Hxy.
    + constructor; [done|]. by constructor.
    + apply Sorted_inv in Hsorted as [Hl Hhd]. constructor; [by apply IH|].
      apply insert_sorted_hdrel; [|done].
      destruct (leb_total x y); congruence.
Qed.

Lemma stable_sort_sorted (l : list A) :
  Sorted (λ u v, leb u v = true) (stable_sort leb l).
Proof using leb_total.
  induction l as [|x l IH]; [constructor|].
  unfold stable_sort. cbn [foldr]. by apply insert_sorted_sorted.
Qed.

End sorting_properties.

Lemma stable_sort_fmap {A B : Type} (f : A → B) (lebA : A → A → bool)
    (lebB : B → B → bool) (l : list A) :
  (∀ x y, lebA x y = lebB (f x) (f y)) →
  f <$> stable_sort lebA l = stable_sort lebB (f <$> l).
Proof.
  intros Hleb. induction l as [|x l IH]; [done|].
  unfold stable_sort in *. cbn [foldr fmap list_fmap]. rewrite <- IH.
  generalize (foldr (insert_sorted lebA) [] l). intros sorted.
  induction sorted as [|y sorted IHs]; [done|].
  cbn [insert_sorted fmap list_fmap]. rewrite <- Hleb.
  destruct (lebA x y); [done|]. cbn [fmap list_fmap]. by rewrite IHs.
Qed.

(** ** The order on sort keys *)

Section key_order.
Import Setuptools Ordering.

Lemma compare_refl (s : string) : String.compare s s = Eq.
Proof.
  induction s as [|c s IH]; simpl; [done|].
  unfold Ascii.compare. by rewrite N.compare_refl.
Qed.

Lemma compare_gt_lt (s1 s2 : string) :
  String.compare s1 s2 = Gt → String.compare s2 s1 = Lt.
Proof. intros H. rewrite String.compare_antisym, H. done. Qed.

Lemma compare_lt_gt (s1 s2 : string) :
  String.compare s1 s2 = Lt → String.compare s2 s1 = Gt.
Proof. intros H. rewrite String.compare_antisym, H. done. Qed.

Lemma leb_le (s1 s2 : string) : String.leb s1 s2 = true ↔ String.le s1 s2.
Proof. unfold String.le. by rewrite Is_true_true. Qed.

Lemma compare_lt_trans (s1 s2 s3 : string) :
  String.compare s1 s2 = Lt → String.compare s2 s3 = Lt → String.compare s1 s3 = Lt.
Proof.
  intros H12 H23.
  assert (String.le s1 s3) as H13.
  { trans s2; apply leb_le; unfold String.leb; by rewrite ?H12, ?H23. }
  apply leb_le in H13. unfold String.leb in H13.
  destruct (String.compare s1 s3) eqn:Hc; [|done|done].
  apply String.compare_eq_iff in Hc as ->.
  apply compare_lt_gt in H12. congruence.
Qed.

Lemma key_leb_triple (a b : alias) : key_leb a b = triple_leb (sort_key a) (sort_key b).
Proof. reflexivity. Qed.

Lemma triple_leb_total (x y : string * string * string) :
  triple_leb x y = true ∨ triple_leb y x = true.
Proof.
  destruct x as [[x1 x2] x3], y as [[y1 y2] y3]. unfold triple_leb. cbn [fst snd].
  destruct (String.compare x1 y1) eqn:H1; [|by left|right; by rewrite compare_gt_lt].
  apply String.compare_eq_iff in H1 as ->. rewrite compare_refl.
  destruct (String.compare x2 y2) eqn:H2; [|by left|right; by rewrite compare_gt_lt].
  apply String.compare_eq_iff in H2 as ->. rewrite compare_refl.
  apply String.leb_total.
Qed.

#[local] Instance triple_leb_trans : Transitive (λ x y, triple_leb x y = true).
Proof.
  intros [[x1 x2] x3] [[y1 y2] y3] [[z1 z2] z3]. unfold triple_leb. cbn [fst snd].
  destruct (String.compare x1 y1) eqn:Hxy1; [| |done].
  - apply String.compare_eq_iff in Hxy1 as ->.
    destruct (String.compare y1 z1) eqn:Hyz1; [|done|done].
    destruct (String.compare x2 y2) eqn:Hxy2; [| |done].
    + apply String.compare_eq_iff in Hxy2 as ->.
      destruct (String.compare y2 z2) eqn:Hyz2; [|done|done].
      rewrite !leb_le. apply transitivity.
    + destruct (String.compare y2 z2) eqn:Hyz2; [| |done].
      * apply String.compare_eq_iff in Hyz2 as <-. by rewrite Hxy2.
      * by rewrite (compare_lt_trans x2 y2 z2).
  - destruct (String.compare y1 z1) eqn:Hyz1; [| |done].
    + apply String.compare_eq_iff in Hyz1 as <-. by rewrite Hxy1.
    + by rewrite (compare_lt_trans x1 y1 z1).
Qed.

#[local] Instance triple_leb_antisym : AntiSymm (=) (λ x y, triple_leb x y = true).
Proof.
  intros [[x1 x2] x3] [[y1 y2] y3]. unfold triple_leb. cbn [fst snd].
  destruct (String.compare x1 y1) eqn:H1; [| |done].
  - apply String.compare_eq_iff in H1 as ->. rewrite compare_refl.
    destruct (String.compare x2 y2) eqn:H2; [| |done].
    + apply String.compare_eq_iff in H2 as ->. rewrite compare_refl.
      intros Hxy Hyx. by rewrite (String.leb_antisym _ _ Hxy Hyx).
    + by rewrite (compare_lt_gt _ _ H2).
  - by rewrite (compare_lt_gt _ _ H1).
Qed.

(** Two scans that find the same declarations in a different order sort
    them into lists with the same keys. *)
Lemma sorted_keys_unique (l1 l2 : list alias) :
  l1 ≡ₚ l2 →
  sort_key <$> stable_sort key_leb l1 = sort_key <$> stable_sort key_leb l2.
Proof.
  intros Hperm.
  rewrite !(stable_sort_fmap sort_key key_leb triple_leb) by apply key_leb_triple.
  apply (Sorted_unique (λ x y, triple_leb x y = true)).
  - apply stable_sort_sorted, triple_leb_total.
  - apply stable_sort_sorted, triple_leb_total.
  - by rewrite !stable_sort_perm, Hperm.
Qed.

Lemma emit_aliases_keys (target : string) (l1 : list alias) :
  ∀ l2 imported declared content,
    sort_key <$> l1 = sort_key <$> l2 →
    emit_aliases target l1 imported declared content
    = emit_aliases target l2 imported declared content.
Proof.
  induction l1 as [|a l1 IH]; intros [|b l2] imported declared content Hkeys;
    try done.
  cbn [fmap list_fmap] in Hkeys. unfold sort_key at 1 2 in Hkeys.
  injection Hkeys as Hfrom Hobject Hname Hrest.
  cbn [emit_aliases]. unfold original_ref. rewrite Hfrom, Hobject, Hname.
  destruct (declared !! alias_name b); [done|]. by apply IH.
Qed.

End key_order.

(** ** Alias synthesis: what it depends on *)

Section synthesis_properties.
Import Setuptools Ordering.
Variable MAGIC_COMMENT : string.

Lemma managed_loop_permuted (root : Path) (mods pkgs : gset string)
    (batch1 batch2 : list (string * list alias)) :
  Forall2 (λ x y, x.1 = y.1 ∧ x.2 ≡ₚ y.2) batch1 batch2 →
  ∀ managed,
    managed_loop MAGIC_COMMENT root mods pkgs batch1 managed
    = managed_loop MAGIC_COMMENT root mods pkgs batch2 managed.
Proof.
  induction 1 as [|[t1 l1] [t2 l2] batch1 batch2 [Ht Hl] _ IH]; intros managed;
    [done|].
  cbn [fst snd] in Ht, Hl. subst t2. cbn [managed_loop].
  destruct (check_target mods pkgs t1); [|done].
  rewrite (emit_aliases_keys t1 (stable_sort key_leb l1) (stable_sort key_leb l2))
    by by apply sorted_keys_unique.
  destruct (emit_aliases t1 (stable_sort key_leb l2) ∅ ∅ MAGIC_COMMENT); [|done].
  apply IH.
Qed.

(** X1.  The outcome of alias synthesis (the generated files and their
    contents, or the error) does not depend on the order in which the
    declarations of a target module were collected. *)
Theorem build_managed_order_independent (root : Path)
    (batch1 batch2 : list (string * list alias)) (files : list Path) :
  Forall2 (λ x y, x.1 = y.1 ∧ x.2 ≡ₚ y.2) batch1 batch2 →
  build_managed MAGIC_COMMENT root batch1 files
  = build_managed MAGIC_COMMENT root batch2 files.
Proof. intros Hperm. unfold build_managed. by apply managed_loop_permuted. Qed.

End synthesis_properties.

Section synthesis_runs.
Import Setuptools Example.

Lemma build_managed_order_independent_witness :
  build_managed magic here
    [("api"%string, [entry "api" "src.b" "g" "g"; entry "api" "src.a" "f" "f"])] sources
  = build_managed magic here
      [("api"%string, [entry "api" "src.a" "f" "f"; entry "api" "src.b" "g" "g"])] sources.
Proof.
  apply (build_managed_order_independent magic here).
  constructor; [|constructor]. split; [reflexivity|]. apply Permutation_swap.
Defined.

End synthesis_runs.

(** ** Dotted paths *)

Section dotted_paths.
Import Setuptools.

Lemma split_on_nonempty (sep : Ascii.ascii) (s : string) : split_on sep s ≠ [].
Proof.
  destruct s as [|c s]; [done|]. cbn [split_on].
  destruct (Ascii.eqb c sep); [done|]. by destruct (split_on sep s).
Qed.

Lemma join_cons (sep x : string) (l : list string) :
  l ≠ [] → join sep (x :: l) = x +:+ sep +:+ join sep l.
Proof. by destruct l. Qed.

(** Joining what [split] returns gives the string back. *)
Lemma join_split_on (c : Ascii.ascii) (s : string) :
  join (String c EmptyString) (split_on c s) = s.
Proof.
  induction s as [|x s IH]; [done|]. cbn [split_on].
  destruct (Ascii.eqb_spec x c) as [->|Hne].
  - rewrite join_cons by apply split_on_nonempty. by rewrite IH.
  - pose proof (split_on_nonempty c s) as Hparts.
    destruct (split_on c s) as [|y l]; [done|].
    destruct l as [|z l].
    + cbn in IH. by rewrite <- IH.
    + rewrite join_cons in IH by done. rewrite join_cons by done.
      rewrite append_cons. by rewrite IH.
Qed.

(** X2.  A target module whose dotted path is the path of an existing
    source module is rejected by the collision check, with an error that
    names it: the last prefix that the check tries is the target itself. *)
Theorem check_target_rejects_existing_module (mods pkgs : gset string)
    (target : string) :
  target ∈ mods →
  ∃ msg,
    check_target mods pkgs target = Raise (HopsworksApigenError msg)
    ∧ names msg target.
Proof.
  intros Hmod.
  destruct (check_target_raises mods pkgs target) as (p & msg & _ & Hraise & Hn & _).
  - exists target. right. exists (length (split_on dot target)).
    pose proof (split_on_nonempty dot target) as Hparts.
    split; [destruct (split_on dot target); [done | simpl; lia]|].
    rewrite firstn_all. fold (join "." (split_on dot target)).
    change "."%string with (String dot EmptyString).
    by rewrite join_split_on.
  - by exists msg.
Qed.

Lemma check_target_rejects_existing_module_witness :
  ∃ msg,
    check_target {[ "pkg.mod"%string ]} ∅ "pkg.mod" = Raise (HopsworksApigenError msg)
    ∧ names msg "pkg.mod".
Proof.
  apply (check_target_rejects_existing_module {[ "pkg.mod"%string ]} ∅ "pkg.mod").
  by apply elem_of_singleton.
Defined.

End dotted_paths.

(** ** Grouping by target module *)

Section grouping.
Import Setuptools.

Lemma group_append_get (a : alias) (d : list (string * list alias)) (k : string) :
  dict_get k (group_append a d)
  = if decide (target_module a = k)
    then Some (default [] (dict_get k d) ++ [a])
    else dict_get k d.
Proof.
  induction d as [|[k' l] d IH]; cbn [group_append dict_get].
  - destruct (decide (target_module a = k)) as [<-|Hne].
    + by rewrite decide_True.
    + by rewrite decide_False.
  - destruct (decide (target_module a = k')) as [Hk'|Hk']; cbn [dict_get].
    + destruct (decide (k = k')) as [->|Hne].
      * by rewrite decide_True.
      * rewrite decide_False; [done | congruence].
    + destruct (decide (k = k')) as [->|Hne].
      * by rewrite decide_False.
      * apply IH.
Qed.

Lemma group_append_keys (a : alias) (d : list (string * list alias)) :
  NoDup d.*1 → NoDup (group_append a d).*1
  ∧ ∀ k, k ∈ (group_append a d).*1 ↔ k = target_module a ∨ k ∈ d.*1.
Proof.
  induction d as [|[k' l] d IH]; cbn [group_append]; intros Hnodup.
  - split; [apply NoDup_singleton|]. intros k. cbn.
    rewrite list_elem_of_singleton, elem_of_nil. tauto.
  - destruct (decide (target_module a = k')) as [->|Hne].
    + split; [done|]. intros k. cbn. rewrite elem_of_cons. tauto.
    + cbn in Hnodup. apply NoDup_cons in Hnodup as [Hk' Hnodup].
      destruct (IH Hnodup) as [IH1 IH2]. split.
      * cbn. apply NoDup_cons. split; [|done]. rewrite IH2.
        intros [-> | ?]; done.
      * intros k. cbn. rewrite !elem_of_cons, IH2. tauto.
Qed.

Lemma grouped_get (l : list alias) (k : string) :
  ∀ d,
    dict_get k (foldl (λ d a, group_append a d) d l)
    = match filter (λ a, target_module a = k) l with
      | [] => dict_get k d
      | g => Some (default [] (dict_get k d) ++ g)
      end.
Proof.
  induction l as [|a l IH]; intros d; [done|].
  cbn [foldl]. rewrite IH, group_append_get, filter_cons.
  destruct (decide (target_module a = k)) as [Hk|Hk].
  - destruct (filter _ l) as [|b g]; [done|].
    simpl. by rewrite <- app_assoc.
  - done.
Qed.

Lemma grouped_keys (l : list alias) :
  ∀ d, NoDup d.*1 → NoDup (foldl (λ d a, group_append a d) d l).*1.
Proof.
  induction l as [|a l IH]; intros d Hd; [done|].
  cbn [foldl]. apply IH. by apply group_append_keys.
Qed.

Variable MAGIC_COMMENT : string.
Variable griffe_aliases : Path → FS → list alias.

(** X3.  In what [collect_aliases] returns, each target module occurs
    once, and the declarations filed under a target module are exactly
    the declarations of the scan with that target, in scan order; a
    target that no declaration names is not a key. *)
Theorem collect_aliases_groups (root : Path) (fs fs' : FS)
    (batch : list (string * list alias)) (files : list Path) :
  collect_aliases MAGIC_COMMENT griffe_aliases root fs = (Ok (batch, files), fs') →
  NoDup batch.*1
  ∧ ∀ k, dict_get k batch
         = match filter (λ a, target_module a = k) (griffe_aliases root fs') with
           | [] => None
           | g => Some g
           end.
Proof.
  unfold collect_aliases.
  destruct (_discover_python_modules MAGIC_COMMENT root fs) as [[found|e] fs1];
    [|done].
  intros [= <- _ <-]. split.
  - apply grouped_keys. constructor.
  - intros k. by rewrite grouped_get.
Qed.

End grouping.

Section grouping_runs.
Import Setuptools Example.

Lemma collect_aliases_groups_witness :
  NoDup [("api"%string, [entry "api" "src.a" "f" "f"; entry "api" "src.b" "f" "f"]);
         ("pkg.mod"%string, [entry "pkg.mod" "pkg.mod" "g" "g"])].*1
  ∧ ∀ k, dict_get k
           [("api"%string, [entry "api" "src.a" "f" "f"; entry "api" "src.b" "f" "f"]);
            ("pkg.mod"%string, [entry "pkg.mod" "pkg.mod" "g" "g"])]
         = match filter (λ a, target_module a = k) (scan_two_errors here tree) with
           | [] => None
           | g => Some g
           end.
Proof.
  apply (collect_aliases_groups magic scan_two_errors here tree tree _ sources).
  by_computation.
Defined.

End grouping_runs.

(** ** Discovery *)

Section discovery.
Import Setuptools Discovery.
Variable MAGIC_COMMENT : string.

Lemma generated_marker_weaken (fs1 fs : FS) (q : Path) :
  fs1 ⊆ fs → generated_marker MAGIC_COMMENT fs1 q → generated_marker MAGIC_COMMENT fs q.
Proof.
  intros Hsub (Hname & Hskip & text & Hq & Htext). split; [done|]. split; [done|].
  exists text. split; [|done]. by eapply lookup_weaken.
Qed.

Lemma discover_loop_spec (root : Path) (found : list Path) :
  ∀ acc fs files fs',
    discover_loop MAGIC_COMMENT root found acc fs = (Ok files, fs') →
    Forall (source_file MAGIC_COMMENT fs) acc →
    Forall (source_file MAGIC_COMMENT fs) files
    ∧ ∀ q, fs' !! q = fs !! q
           ∨ (fs' !! q = None ∧ generated_marker MAGIC_COMMENT fs q).
Proof.
  induction found as [|f found IH]; intros acc fs files fs'.
  - intros [= <- <-] Hacc. split; [done|]. by left.
  - cbn [discover_loop].
    set (py_file := (false, drop (length root.2) f.2) : Path).
    destruct (existsb skipped_part py_file.2) eqn:Hskip; [apply IH|].
    destruct (String.eqb_spec (name py_file) "__init__.py") as [Hname|Hname].
    + destruct (read_text py_file fs) as [[text|e] fs1] eqn:Hread; [|done].
      pose proof (read_text_state _ _ _ _ Hread) as ->.
      apply read_text_ok in Hread as [_ Hfile].
      destruct (String.prefix MAGIC_COMMENT text) eqn:Htext.
      * unfold unlink. rewrite Hfile.
        intros Hloop Hacc.
        assert (generated_marker MAGIC_COMMENT fs py_file) as Hmarker
          by (split; [done|]; split; [done|]; by exists text).
        destruct (IH acc (delete py_file fs) files fs' Hloop) as [Hfiles Hfs].
        { eapply Forall_impl; [exact Hacc|]. intros p [Hp Hinit]. split; [done|].
          intros Hpname. destruct (Hinit Hpname) as (t & Hpt & Hptext).
          exists t. split; [|done]. rewrite lookup_delete_ne; [done|].
          intros <-. congruence. }
        split.
        -- eapply Forall_impl; [exact Hfiles|]. intros p [Hp Hinit]. split; [done|].
           intros Hpname. destruct (Hinit Hpname) as (t & Hpt & Hptext).
           exists t. split; [|done].
           eapply lookup_weaken; [exact Hpt | apply delete_subseteq].
        -- intros q. destruct (decide (q = py_file)) as [->|Hq].
           ++ right. split; [|done].
              destruct (Hfs py_file) as [-> | [-> _]]; [apply lookup_delete_eq | done].
           ++ destruct (Hfs q) as [-> | [-> Hgen]].
              ** left. by apply lookup_delete_ne.
              ** right. split; [done|].
                 eapply generated_marker_weaken; [apply delete_subseteq | done].
      * intros Hloop Hacc. eapply IH; [exact Hloop|].
        apply Forall_app. split; [done|]. constructor; [|done].
        split; [done|]. intros _. by exists text.
    + intros Hloop Hacc. eapply IH; [exact Hloop|].
      apply Forall_app. split; [done|]. constructor; [|done].
      split; [done|]. intros Hinit. by destruct Hname.
Qed.

(** X4.  Discovery returns only files outside the skipped directories
    (hidden ones, [__pycache__], [build], [dist], [venv]), and no
    [__init__.py] that starts with the magic marker.  Its only effect on
    the file system is to delete generated package markers: files named
    [__init__.py], outside the skipped directories, that start with the
    magic marker.  Everything else is as it was. *)
Theorem discover_python_modules_spec (root : Path) (fs fs' : FS) (files : list Path) :
  _discover_python_modules MAGIC_COMMENT root fs = (Ok files, fs') →
  Forall (source_file MAGIC_COMMENT fs) files
  ∧ ∀ q, fs' !! q = fs !! q
         ∨ (fs' !! q = None ∧ generated_marker MAGIC_COMMENT fs q).
Proof.
  unfold _discover_python_modules. intros Hloop.
  by apply (discover_loop_spec root _ [] fs files fs' Hloop).
Qed.

End discovery.

Section discovery_runs.
Import Setuptools Discovery Example.

Lemma discover_python_modules_spec_witness :
  Forall (source_file magic stale_tree)
    [(false, ["pkg"; "mod.py"]); (false, ["pkg"; "__init__.py"])]
  ∧ ∀ q, delete (false, ["api"; "__init__.py"]) stale_tree !! q = stale_tree !! q
         ∨ (delete (false, ["api"; "__init__.py"]) stale_tree !! q = None
            ∧ generated_marker magic stale_tree q).
Proof.
  apply (discover_python_modules_spec magic here stale_tree).
  by_computation.
Defined.

End discovery_runs.

(** ** What materialisation leaves in place *)

Section materialisation_frame.
Import Setuptools Discovery.
Variable MAGIC_COMMENT : string.
Variable griffe_aliases : Path → FS → list alias.

Lemma grows_refl (fs : FS) : grows fs fs.
Proof. by intros q. Qed.

Lemma grows_trans (fs1 fs2 fs3 : FS) : grows fs1 fs2 → grows fs2 fs3 → grows fs1 fs3.
Proof.
  intros H12 H23 q. destruct (H12 q) as [Ha Hb], (H23 q) as [Hc Hd]. split; auto.
Qed.

Lemma is_dir_false_not_dir (fs : FS) (p : Path) :
  is_dir fs p = false → fs !! p ≠ Some Dir.
Proof. unfold is_dir. destruct p.2; [done|]. by intros ?%bool_decide_eq_false. Qed.

Lemma write_text_grows (p : Path) (content : string) (fs fs' : FS) (r : result ()) :
  write_text p content fs = (r, fs') → grows fs fs'.
Proof.
  unfold write_text. destruct (is_dir fs p) eqn:Hdir; [intros [= _ <-]; apply grows_refl|].
  destruct (negb (exists_ fs (parent p))); [intros [= _ <-]; apply grows_refl|].
  destruct (negb (is_dir fs (parent p))); intros [= _ <-]; [apply grows_refl|].
  apply is_dir_false_not_dir in Hdir. intros q.
  destruct (decide (q = p)) as [->|Hq].
  - rewrite lookup_insert_eq. split; [by eauto | done].
  - by rewrite lookup_insert_ne.
Qed.

Lemma mkdir_grows (p : Path) (fs fs' : FS) (r : result ()) :
  mkdir p fs = (r, fs') → grows fs fs'.
Proof.
  unfold mkdir. destruct (exists_ fs p) eqn:Hex; [intros [= _ <-]; apply grows_refl|].
  destruct (negb (exists_ fs (parent p))); [intros [= _ <-]; apply grows_refl|].
  destruct (negb (is_dir fs (parent p))); intros [= _ <-]; [apply grows_refl|].
  apply exists_false_lookup in Hex. intros q.
  destruct (decide (q = p)) as [->|Hq].
  - rewrite lookup_insert_eq, Hex. split; [by eauto | done].
  - by rewrite lookup_insert_ne.
Qed.

Lemma create_dirs_grows (destination_root : Path) (dirs : list Path) :
  ∀ entries fs r fs',
    create_dirs MAGIC_COMMENT destination_root dirs entries fs = (r, fs') →
    grows fs fs'.
Proof.
  induction dirs as [|d dirs IH]; intros entries fs r fs'.
  - intros [= _ <-]. apply grows_refl.
  - cbn [create_dirs].
    destruct (mkdir d fs) as [[[]|e] fs1] eqn:Hmkdir; apply mkdir_grows in Hmkdir;
      [|by intros [= _ <-]].
    destruct (write_text _ MAGIC_COMMENT fs1) as [[[]|e] fs2] eqn:Hwrite;
      apply write_text_grows in Hwrite.
    + intros Hrest%IH. eauto using grows_trans.
    + intros [= _ <-]. eauto using grows_trans.
Qed.

Lemma materialize_grows (source_root destination_root : Path)
    (items : list (Path * string)) :
  ∀ entries fs r fs',
    materialize MAGIC_COMMENT source_root destination_root items entries fs = (r, fs') →
    grows fs fs'.
Proof.
  induction items as [|[filepath content] items IH]; intros entries fs r fs'.
  - intros [= _ <-]. apply grows_refl.
  - cbn [materialize].
    destruct (relative_to filepath source_root) as [rel|e];
      [|intros [= _ <-]; apply grows_refl].
    destruct (create_dirs _ _ _ entries fs) as [[entries1|e] fs1] eqn:Hdirs;
      apply create_dirs_grows in Hdirs; [|by intros [= _ <-]].
    destruct (write_text _ content fs1) as [[[]|e] fs2] eqn:Hwrite;
      apply write_text_grows in Hwrite.
    + intros Hrest%IH. eauto using grows_trans.
    + intros [= _ <-]. eauto using grows_trans.
Qed.

Lemma append_nil_r (s : string) : s +:+ "" = s.
Proof. induction s as [|c s IH]; [done|]. rewrite append_cons. by rewrite IH. Qed.

Lemma write_gitignore_grows (destination_root : Path) (entries : list string)
    (fs fs' : FS) (r : result ()) :
  write_gitignore destination_root entries fs = (r, fs') → grows fs fs'.
Proof.
  unfold write_gitignore. destruct entries as [|x entries];
    [intros [= _ <-]; apply grows_refl|].
  destruct (exists_ fs _).
  - destruct (read_text _ fs) as [[text|e] fs1] eqn:Hread;
      apply read_text_state in Hread as ->.
    + apply write_text_grows.
    + intros [= _ <-]. apply grows_refl.
  - apply write_text_grows.
Qed.

(** X5.  After the discovery step, [generate_aliases] only adds and
    overwrites: every entry that discovery left is still there when the
    run ends, whether it succeeds or stops on an error, and every
    directory is still a directory. *)
Theorem generate_aliases_grows (source_root destination_root : Path) (fs : FS) :
  grows (collect_managed MAGIC_COMMENT griffe_aliases source_root fs).2
        (generate_aliases MAGIC_COMMENT griffe_aliases source_root destination_root fs).2.
Proof.
  unfold generate_aliases.
  destruct (collect_managed _ _ source_root fs) as [[managed|e] fs1];
    [|apply grows_refl].
  cbn [snd].
  destruct (materialize _ _ _ managed [] fs1) as [[entries|e] fs2] eqn:Hmat;
    apply materialize_grows in Hmat; [|done].
  destruct (write_gitignore _ entries fs2) as [[[]|e] fs3] eqn:Hignore;
    apply write_gitignore_grows in Hignore; cbn [snd]; eauto using grows_trans.
Qed.

(** X6.  When the ignore list exists at the destination root and the
    ignore step succeeds, the file keeps its old content as a prefix of
    the new one; with no freshly created directory the file system is
    not touched. *)
Theorem write_gitignore_keeps_old (destination_root : Path) (entries : list string)
    (fs fs' : FS) (old : string) :
  fs !! joinpath destination_root (false, [".gitignore"]) = Some (File old) →
  write_gitignore destination_root entries fs = (Ok (), fs') →
  (entries = [] → fs' = fs)
  ∧ ∃ added,
      fs' !! joinpath destination_root (false, [".gitignore"])
      = Some (File (old +:+ added)).
Proof.
  intros Hold. unfold write_gitignore.
  destruct entries as [|x entries].
  - intros [= <-]. split; [done|]. exists ""%string.
    by rewrite Hold, append_nil_r.
  - assert (exists_ fs (joinpath destination_root (false, [".gitignore"])) = true) as ->.
    { unfold exists_. destruct (joinpath _ _).2; [done|].
      apply bool_decide_eq_true. by eauto. }
    unfold read_text. rewrite Hold.
    assert ((joinpath destination_root (false, [".gitignore"])).2 ≠ []) as Hparts.
    { unfold joinpath. cbn. by destruct destination_root.2. }
    destruct (joinpath destination_root (false, [".gitignore"])).2 eqn:Hp; [done|].
    unfold write_text. repeat case_match; intros [= <-].
    split; [done|]. eexists. by rewrite lookup_insert_eq.
Qed.

End materialisation_frame.

Section materialisation_frame_runs.
Import Setuptools.

Lemma write_gitignore_keeps_old_witness :
  (["/api"%string] = [] →
   <[(false, [".gitignore"]) := File ("*.pyc" +:+ "/api" +:+ nl)]>
     ({[ (false, [".gitignore"]) := File "*.pyc" ]} : FS)
   = {[ (false, [".gitignore"]) := File "*.pyc" ]})
  ∧ ∃ added,
      <[(false, [".gitignore"]) := File ("*.pyc" +:+ "/api" +:+ nl)]>
        ({[ (false, [".gitignore"]) := File "*.pyc" ]} : FS)
        !! joinpath here (false, [".gitignore"])
      = Some (File ("*.pyc" +:+ added)).
Proof.
  apply (write_gitignore_keeps_old here ["/api"%string]
           {[ (false, [".gitignore"]) := File "*.pyc" ]}); by_computation.
Defined.

End materialisation_frame_runs.

(** ** The pattern of versions *)

Section pattern.
Import Errors Patterns.
Variable decimal : N → bool.

Lemma one_or_more_spec (k : list N → bool) (s : list N) :
  one_or_more decimal k s = true
  ↔ ∃ a rest, a ≠ [] ∧ forallb decimal a = true ∧ s = a ++ rest ∧ k rest = true.
Proof.
  induction s as [|c s IH]; cbn [one_or_more].
  - split; [done|]. by intros ([|x a] & rest & Hne & _ & Heq & _).
  - rewrite andb_true_iff, orb_true_iff, IH. split.
    + intros [Hc [(a & rest & _ & Ha & -> & Hk) | Hk]].
      * exists (c :: a), rest. cbn [forallb]. by rewrite Hc, Ha.
      * exists [c], s. cbn [forallb]. by rewrite Hc.
    + intros ([|x a] & rest & Hne & Ha & Heq & Hk); [done|].
      injection Heq as <- ->. cbn [forallb] in Ha.
      apply andb_true_iff in Ha as [Hc Ha]. split; [done|].
      destruct a as [|y a]; [by right|]. left. by exists (y :: a), rest.
Qed.

Lemma at_end_cases (tail : list N) :
  at_end tail = true ↔ tail = [] ∨ tail = [10%N].
Proof.
  destruct tail as [|c [|d tail]]; cbn [at_end].
  - split; [by left | done].
  - rewrite N.eqb_eq. split; [intros ->; by right | by intros [|[= ->]]].
  - split; [done | by intros [|]].
Qed.

(** X7.  The version pattern accepts exactly the strings made of one or
    more decimal digits, a dot and one or more decimal digits,
    optionally followed by a single newline at the very end (the [$] of
    [re.match]).  A decimal digit is whatever the class [\d] holds: on a
    [str] pattern, every decimal digit of Unicode. *)
Theorem version_pattern_language (s : list N) :
  re_match decimal VERSION_PATTERN s = true
  ↔ ∃ a b tail,
      a ≠ [] ∧ forallb decimal a = true
      ∧ b ≠ [] ∧ forallb decimal b = true
      ∧ (tail = [] ∨ tail = [10%N])
      ∧ s = a ++ 46%N :: b ++ tail.
Proof.
  unfold re_match, VERSION_PATTERN. cbn [match_here andb].
  rewrite one_or_more_spec. split.
  - intros (a & [|x rest] & Hane & Ha & -> & Hk); [done|].
    apply andb_true_iff in Hk as [->%N.eqb_eq Hk].
    apply one_or_more_spec in Hk as (b & tail & Hbne & Hb & -> & Htail).
    rewrite andb_true_r in Htail. apply at_end_cases in Htail.
    by exists a, b, tail.
  - intros (a & b & tail & Hane & Ha & Hbne & Hb & Htail & ->).
    exists a, (46%N :: b ++ tail). repeat (split; [done|]).
    rewrite N.eqb_refl. cbn [andb]. apply one_or_more_spec.
    exists b, tail. repeat (split; [done|]).
    rewrite andb_true_r. by apply at_end_cases.
Qed.

(** *** The matcher of [generate_deprecation_message] *)

(** In the 8-bit range the only decimal digits are ['0'] to ['9']. *)
Hypothesis decimal_8bit :
  ∀ c, (c < 256)%N → decimal c = (48 <=? c)%N && (c <=? 57)%N.

Lemma is_digit_decimal (c : Ascii.ascii) :
  is_digit c = decimal (Ascii.N_of_ascii c).
Proof.
  rewrite decimal_8bit by apply Ascii.N_ascii_bounded.
  unfold is_digit, Ascii.nat_of_ascii.
  destruct (N.leb_spec 48 (Ascii.N_of_ascii c)), (N.leb_spec (Ascii.N_of_ascii c) 57),
    (Nat.leb_spec 48 (N.to_nat (Ascii.N_of_ascii c))),
    (Nat.leb_spec (N.to_nat (Ascii.N_of_ascii c)) 57); try reflexivity; lia.
Qed.

Lemma one_or_more_skip (k : list N → bool) (c : Ascii.ascii) (rest : string) :
  (∀ d r, decimal d = true → k (d :: r) = false) →
  is_digit c = true →
  one_or_more decimal k (code_points (String c rest))
  = k (code_points (skip_digits rest)).
Proof.
  intros Hk. revert c. induction rest as [|c' rest IH]; intros c Hc.
  - change (code_points (String c "")) with [Ascii.N_of_ascii c].
    cbn [one_or_more skip_digits]. by rewrite <- is_digit_decimal, Hc.
  - change (code_points (String c (String c' rest)))
      with (Ascii.N_of_ascii c :: code_points (String c' rest)).
    cbn [one_or_more skip_digits]. rewrite <- is_digit_decimal, Hc. cbn [andb].
    destruct (is_digit c') eqn:Hc'.
    + rewrite IH by done.
      change (code_points (String c' rest))
        with (Ascii.N_of_ascii c' :: code_points rest).
      rewrite Hk; [apply orb_false_r | by rewrite <- is_digit_decimal].
    + change (code_points (String c' rest))
        with (Ascii.N_of_ascii c' :: code_points rest) at 1.
      cbn [one_or_more]. by rewrite <- is_digit_decimal, Hc'.
Qed.

Lemma at_dollar_at_end (t : string) : at_dollar t = at_end (code_points t).
Proof.
  destruct t as [|c [|d t]]; [done| |done].
  change (code_points (String c "")) with [Ascii.N_of_ascii c].
  cbn [at_dollar at_end]. unfold Ascii.nat_of_ascii.
  destruct (Nat.eqb_spec (N.to_nat (Ascii.N_of_ascii c)) 10),
    (N.eqb_spec (Ascii.N_of_ascii c) 10); try reflexivity; lia.
Qed.

(** On strings of the 8-bit range, the matcher that
    [generate_deprecation_message] is modelled with decides the version
    pattern. *)
Lemma re_match_major_minor_exact (s : string) :
  re_match_major_minor s = re_match decimal VERSION_PATTERN (code_points s).
Proof.
  assert (∀ d, decimal d = true → d ≠ 46%N ∧ d ≠ 10%N) as Hnot.
  { intros d Hd. split; intros ->; by rewrite decimal_8bit in Hd. }
  unfold re_match_major_minor, re_match, VERSION_PATTERN, digits1.
  cbn [match_here andb].
  destruct s as [|c rest]; [done|].
  destruct (is_digit c) eqn:Hc.
  - rewrite one_or_more_skip; [|clear -Hnot|done].
    + destruct (skip_digits rest) as [|c2 rest2]; [done|].
      change (code_points (String c2 rest2))
        with (Ascii.N_of_ascii c2 :: code_points rest2).
      replace (Ascii.nat_of_ascii c2 =? 46)
        with (Ascii.N_of_ascii c2 =? 46)%N.
      2:{ unfold Ascii.nat_of_ascii.
          destruct (Nat.eqb_spec (N.to_nat (Ascii.N_of_ascii c2)) 46),
            (N.eqb_spec (Ascii.N_of_ascii c2) 46); try reflexivity; lia. }
      destruct (Ascii.N_of_ascii c2 =? 46)%N; [|done]. cbn [andb].
      destruct rest2 as [|c3 rest3]; [done|].
      destruct (is_digit c3) eqn:Hc3.
      * rewrite one_or_more_skip; [|clear -Hnot|done].
        -- by rewrite andb_true_r, at_dollar_at_end.
        -- intros d [|x r] Hd; cbn [at_end andb]; [|done].
           rewrite andb_true_r. apply N.eqb_neq. by apply Hnot.
      * change (code_points (String c3 rest3))
          with (Ascii.N_of_ascii c3 :: code_points rest3).
        cbn [one_or_more]. by rewrite <- is_digit_decimal, Hc3.
    + intros d r Hd. replace (d =? 46)%N with false; [done|].
      symmetry. apply N.eqb_neq. by apply Hnot.
  - change (code_points (String c rest))
      with (Ascii.N_of_ascii c :: code_points rest).
    cbn [one_or_more]. by rewrite <- is_digit_decimal, Hc.
Qed.

End pattern.

(** ** The registry of public names *)

Section registry.
Context {K V : Type} `{EqDecision K}.

Lemma dict_get_set (k : K) (v : V) (d : list (K * V)) :
  dict_get k (dict_set k v d) = Some v.
Proof.
  induction d as [|[k' v'] d IH]; cbn [dict_set dict_get].
  - by rewrite decide_True.
  - destruct (decide (k = k')) as [->|Hne]; cbn [dict_get].
    + by rewrite decide_True.
    + by rewrite decide_False.
Qed.

Lemma dict_get_set_ne (k k' : K) (v : V) (d : list (K * V)) :
  k ≠ k' → dict_get k' (dict_set k v d) = dict_get k' d.
Proof.
  intros Hne. induction d as [|[k0 v0] d IH]; cbn [dict_set dict_get].
  - rewrite decide_False; [done | congruence].
  - destruct (decide (k = k0)) as [->|Hk]; cbn [dict_get].
    + rewrite !decide_False; [done | congruence | congruence].
    + destruct (decide (k' = k0)); [done | apply IH].
Qed.

End registry.

Section public_properties.
Import Aliases Errors Deprecation.

(** X8.  When the primary path is a string (or no path is given, which
    stands for the empty string), the decorator returns the symbol it
    was given and records the primary path for it; a later lookup of the
    symbol finds that path, whatever was recorded for it before, and the
    names recorded for other symbols are unchanged. *)
Theorem publicate_records (paths : list pyval) (symbol : pyval)
    (nameOf : name_registry) (primary : string) :
  paths = [] ∧ primary = ""%string ∨ (∃ rest, paths = PyStr primary :: rest) →
  ∃ nameOf',
    publicate paths symbol nameOf = (Ok symbol, nameOf')
    ∧ dict_get symbol nameOf' = Some primary
    ∧ ∀ other, other ≠ symbol → dict_get other nameOf' = dict_get other nameOf.
Proof.
  intros [[-> ->] | [rest ->]]; (eexists; split; [reflexivity|]); split;
    try apply dict_get_set; intros other Hother; by apply dict_get_set_ne.
Qed.

Lemma publicate_records_witness :
  ∃ nameOf',
    publicate [PyStr "api.run"; PyStr ""] (PyObj 0) [(PyObj 0, "old.run"%string)]
    = (Ok (PyObj 0), nameOf')
    ∧ dict_get (PyObj 0) nameOf' = Some "api.run"%string
    ∧ ∀ other, other ≠ PyObj 0 →
               dict_get other nameOf' = dict_get other [(PyObj 0, "old.run"%string)].
Proof.
  apply (publicate_records [PyStr "api.run"; PyStr ""] (PyObj 0)
           [(PyObj 0, "old.run"%string)] "api.run").
  right. by exists [PyStr ""].
Defined.

(** X9.  [deprecated] placed above [public]: when [public] has recorded a
    non-empty primary path for a function and [deprecated] is given no
    explicit name, the wrapper reports that primary path.  The wrapper
    is a new object; the function stays in the heap as it was. *)
Theorem deprecated_above_public (fuel : nat) (P : params) (paths : list pyval)
    (nameOf : name_registry) (h : heap) (f : nat) (primary : string) :
  isfunction h f = true →
  head paths = Some (PyStr primary) →
  primary ≠ ""%string →
  truthy (public_name P) = false →
  valid_params P →
  ∃ nameOf' message,
    publicate paths (PyObj f) nameOf = (Ok (PyObj f), nameOf')
    ∧ generate_deprecation_message primary (deprecated_by P) (available_until P)
      = Ok message
    ∧ deprecate (S fuel) P nameOf' f h
      = (Ok (length h), h ++ [DeprecatedF f message (default "" (qualname_of h f))])
    ∧ length h ≠ f
    ∧ (h ++ [DeprecatedF f message (default "" (qualname_of h f))]) !! f = h !! f.
Proof.
  intros Hfun Hhead Hprimary Hname Hvalid.
  destruct paths as [|p rest]; [done|]. injection Hhead as ->.
  destruct (valid_params_message P primary Hvalid) as [message Hmessage].
  exists (dict_set (PyObj f) primary nameOf), message.
  split; [done|]. split; [done|].
  assert (f < length h) as Hf.
  { unfold isfunction in Hfun. destruct (h !! f) eqn:Hlookup; [|done].
    by eapply lookup_lt_Some. }
  split; [|split; [lia | by apply lookup_app_l]].
  apply (deprecate_function fuel P _ h f primary message); [done | | done].
  unfold resolve_name. rewrite Hname.
  assert (hashable h f = true) as ->.
  { unfold hashable. unfold isfunction in Hfun. by destruct (h !! f) as [[]|]. }
  rewrite dict_get_set. by apply truthy_nonempty in Hprimary as ->.
Qed.

Lemma deprecated_above_public_witness :
  ∃ nameOf' message,
    publicate [PyStr "api.run"] (PyObj 0) [] = (Ok (PyObj 0), nameOf')
    ∧ generate_deprecation_message "api.run"
        (deprecated_by ClassExample.replaced_by)
        (available_until ClassExample.replaced_by) = Ok message
    ∧ deprecate 1 ClassExample.replaced_by nameOf' 0 ClassExample.objects
      = (Ok (length ClassExample.objects),
         ClassExample.objects
         ++ [DeprecatedF 0 message (default "" (qualname_of ClassExample.objects 0))])
    ∧ length ClassExample.objects ≠ 0
    ∧ (ClassExample.objects
       ++ [DeprecatedF 0 message (default "" (qualname_of ClassExample.objects 0))]) !! 0
      = ClassExample.objects !! 0.
Proof.
  apply (deprecated_above_public 0 ClassExample.replaced_by [PyStr "api.run"] []
           ClassExample.objects 0 "api.run").
  - reflexivity.
  - reflexivity.
  - discriminate.
  - reflexivity.
  - split; [discriminate | right; reflexivity].
Defined.

End public_properties.

(** ** When [deprecate] fails *)

Section deprecate_failures.
Import Aliases Errors Deprecation.

Lemma invalid_params_cases (P : params) :
  ¬ valid_params P →
  deprecated_by P = []
  ∨ ∃ v, available_until P = Some v ∧ v ≠ ""%string ∧ re_match_major_minor v = false.
Proof.
  intros Hinvalid. unfold valid_params in Hinvalid.
  destruct (deprecated_by P) as [|x recs]; [by left|]. right.
  destruct (available_until P) as [v|]; [|destruct Hinvalid; split; [done | by left]].
  exists v. split; [done|].
  destruct (truthy (Some v)) eqn:Htruthy;
    [|destruct Hinvalid; split; [done | by left]].
  split; [by apply truthy_nonempty|].
  destruct (re_match_major_minor v) eqn:Hmatch; [|done].
  destruct Hinvalid. split; [done | by right].
Qed.

Lemma resolve_name_function (P : params) (nameOf : name_registry) (h : heap) (f : nat) :
  isfunction h f = true → ∃ name, resolve_name P nameOf h f = Ok name.
Proof.
  intros Hfun. unfold isfunction in Hfun. unfold resolve_name, hashable, qualname_of.
  destruct (truthy (public_name P)) eqn:Hexplicit.
  - rewrite Hexplicit. by eexists.
  - destruct (h !! f) as [[q|s m q|q t ns|b q]|]; try done;
      destruct (truthy (dict_get (PyObj f) nameOf)); by eexists.
Qed.

(** X10.  With an empty list of recommendations, or a non-empty version
    that does not match the pattern, decorating a function fails at
    decoration time with a configuration error; no wrapper is created. *)
Theorem deprecate_function_invalid (fuel : nat) (P : params) (nameOf : name_registry)
    (h : heap) (f : nat) :
  isfunction h f = true →
  ¬ valid_params P →
  ∃ msg, deprecate (S fuel) P nameOf f h = (Raise (HopsworksApigenError msg), h).
Proof.
  intros Hfun Hinvalid.
  destruct (resolve_name_function P nameOf h f Hfun) as [name Hname].
  destruct (proj2 (generate_deprecation_message_raises name (deprecated_by P)
                     (available_until P)) (invalid_params_cases P Hinvalid))
    as [msg Hmsg].
  exists msg. rewrite deprecate_unfold, Hname.
  by rewrite (isfunction_not_class _ _ Hfun), Hfun, Hmsg.
Qed.

Lemma deprecate_function_invalid_witness :
  ∃ msg,
    deprecate 1 {| deprecated_by := []; available_until := None; public_name := None |}
      [] 0 ClassExample.objects
    = (Raise (HopsworksApigenError msg), ClassExample.objects).
Proof.
  apply (deprecate_function_invalid 0
           {| deprecated_by := []; available_until := None; public_name := None |}
           [] ClassExample.objects 0).
  - reflexivity.
  - by intros [Hrecs _].
Defined.

(** X11.  A class without function members is returned as it is,
    whatever the parameters: an empty list of recommendations or a
    malformed version goes unnoticed, and the heap is unchanged. *)
Theorem deprecate_class_without_members (fuel : nat) (P : params)
    (nameOf : name_registry) (h : heap) (c : nat) :
  isclass h c = true →
  getmembers_isfunction h c = [] →
  deprecate (S fuel) P nameOf c h = (Ok c, h).
Proof.
  intros Hclass Hnone. unfold isclass in Hclass.
  destruct (h !! c) as [[| |q tail ns|]|] eqn:Hc; try done.
  destruct (resolve_name_class P nameOf h c q tail ns Hc) as [name Hname].
  rewrite deprecate_unfold, Hname. unfold isclass. by rewrite Hc, Hnone.
Qed.

Lemma deprecate_class_without_members_witness :
  deprecate 1 {| deprecated_by := []; available_until := Some "soon"%string;
                 public_name := None |}
    [] 0 [Class "Empty" [] ∅]
  = (Ok 0, [Class "Empty" [] ∅]).
Proof.
  apply (deprecate_class_without_members 0
           {| deprecated_by := []; available_until := Some "soon"%string;
              public_name := None |} [] [Class "Empty" [] ∅] 0);
    by_computation.
Defined.

(** X12.  For an object that is neither a class nor a function,
    [deprecate] always raises and changes nothing.  With an explicit
    name it raises the configuration error.  Without one, the lookup in
    [PublicNames.nameOf] hashes the object: an unhashable object makes
    it raise [TypeError]; a hashable object gets the configuration error
    when it has a recorded public name or a [__qualname__], and
    [AttributeError] when it has neither. *)
Theorem deprecate_unsupported (fuel : nat) (P : params) (nameOf : name_registry)
    (h : heap) (v : nat) (can_hash : bool) (q : option string) :
  h !! v = Some (Other can_hash q) →
  (truthy (public_name P) = true →
     deprecate (S fuel) P nameOf v h
     = (Raise (HopsworksApigenError unsupported_error), h))
  ∧ (truthy (public_name P) = false → can_hash = false →
     deprecate (S fuel) P nameOf v h = (Raise (TypeError unhashable_error), h))
  ∧ (truthy (public_name P) = false → can_hash = true →
     truthy (dict_get (PyObj v) nameOf) = true ∨ is_Some q →
     deprecate (S fuel) P nameOf v h
     = (Raise (HopsworksApigenError unsupported_error), h))
  ∧ (truthy (public_name P) = false → can_hash = true →
     truthy (dict_get (PyObj v) nameOf) = false → q = None →
     deprecate (S fuel) P nameOf v h = (Raise (AttributeError "__qualname__"), h)).
Proof.
  intros Hv. rewrite deprecate_unfold.
  unfold isclass, isfunction, resolve_name, hashable, qualname_of. rewrite Hv.
  split; [|split; [|split]].
  - intros Hexplicit. by rewrite !Hexplicit.
  - by intros -> ->.
  - intros -> -> [Hrecorded | [name ->]].
    + by rewrite Hrecorded.
    + by destruct (truthy (dict_get (PyObj v) nameOf)).
  - by intros -> -> -> ->.
Qed.

Lemma deprecate_unsupported_witness :
  (truthy (public_name ClassExample.replaced_by) = true →
     deprecate 1 ClassExample.replaced_by [] 0 [Other false None]
     = (Raise (HopsworksApigenError unsupported_error), [Other false None]))
  ∧ (truthy (public_name ClassExample.replaced_by) = false → false = false →
     deprecate 1 ClassExample.replaced_by [] 0 [Other false None]
     = (Raise (TypeError unhashable_error), [Other false None]))
  ∧ (truthy (public_name ClassExample.replaced_by) = false → false = true →
     truthy (dict_get (PyObj 0) []) = true ∨ is_Some (None : option string) →
     deprecate 1 ClassExample.replaced_by [] 0 [Other false None]
     = (Raise (HopsworksApigenError unsupported_error), [Other false None]))
  ∧ (truthy (public_name ClassExample.replaced_by) = false → false = true →
     truthy (dict_get (PyObj 0) []) = false → (None : option string) = None →
     deprecate 1 ClassExample.replaced_by [] 0 [Other false None]
     = (Raise (AttributeError "__qualname__"), [Other false None])).
Proof.
  apply (deprecate_unsupported 0 ClassExample.replaced_by [] [Other false None] 0
           false None).
  reflexivity.
Defined.

End deprecate_failures.

(** ** Who counts as an internal caller *)

Section internal_callers.
Import Deprecation.
Context {Args Kwargs Ret World : Type}.

(** X13.  A caller counts as internal as soon as its module name begins
    with the letters of one of the three prefixes, whatever follows
    (so "hsmlx" or "hopsworks_apigen" are internal): the wrapper then
    emits nothing.  A caller for which no module is found is external:
    the warning is emitted. *)
Theorem deprecated_f_prefixes
    (symbol : Args → Kwargs → @interp World → Ret * @interp World)
    (message : string) (args : Args) (kwargs : Kwargs) (st : @interp World)
    (p rest : string) :
  p ∈ ["hopsworks"; "hsfs"; "hsml"]%string →
  deprecated_f symbol message (Some (p +:+ rest)) args kwargs st = symbol args kwargs st
  ∧ deprecated_f symbol message None args kwargs st
    = symbol args kwargs (warnings_warn message "HopsworksDeprecationWarning" 2 st).
Proof.
  intros Hp. split; [|done]. unfold deprecated_f.
  replace (startswith (p +:+ rest) ["hopsworks"; "hsfs"; "hsml"]%string) with true; [done|].
  symmetry. unfold startswith. apply existsb_exists. exists p.
  split; [by apply list_elem_of_In | apply prefix_app].
Qed.

End internal_callers.

Lemma deprecated_f_prefixes_witness :
  Deprecation.deprecated_f (World := unit) (λ (x _ : nat) st, (x, st)) "old" (Some "hsmlx.core"%string) 1 2
    {| Deprecation.emitted := []; Deprecation.world := () |}
  = (1, {| Deprecation.emitted := []; Deprecation.world := () |}).
Proof.
  apply (proj1 (deprecated_f_prefixes (World := unit) (λ (x _ : nat) st, (x, st)) "old" 1 2
                  {| Deprecation.emitted := []; Deprecation.world := () |}
                  "hsml" "x.core" ltac:(right; right; left))).
Defined.

(** ** Navigation: an entry without a key *)

Section merge_nav_edge.
Import Mkdocs.

Lemma merge_loop_empty_mapping (title : string) (nav_list cfg_nav : list nav_item)
    (pre post : list nav_item) :
  ∀ position,
    Forall has_key pre →
    Forall (λ x, ¬ is_placeholder title x) pre →
    merge_loop position (pre ++ NavDict [] :: post) cfg_nav title nav_list
    = Raise StopIteration.
Proof.
  induction pre as [|a pre IH]; intros position Hkey Hno; [done|].
  inversion_clear Hkey. inversion_clear Hno.
  cbn [app]. rewrite merge_loop_skip by done. by apply IH.
Qed.

(** X14.  When a mapping without any key comes before every entry that
    stands for the section, the merge raises [StopIteration]: neither
    the replacement nor the append takes place. *)
Theorem merge_nav_empty_mapping (pre post : list nav_item) (section_title : string)
    (nav_list : list nav_item) :
  Forall has_key pre →
  Forall (λ x, ¬ is_placeholder section_title x) pre →
  _merge_nav (pre ++ NavDict [] :: post) section_title nav_list = Raise StopIteration.
Proof. intros Hkey Hno. by apply merge_loop_empty_mapping. Qed.

Lemma merge_nav_empty_mapping_witness :
  _merge_nav ([NavStr "Home"] ++ NavDict [] :: [NavStr "API Reference"])
    "API Reference" []
  = Raise StopIteration.
Proof.
  apply (merge_nav_empty_mapping [NavStr "Home"] [NavStr "API Reference"]
           "API Reference" []).
  - repeat constructor.
  - repeat constructor. simpl. discriminate.
Defined.

End merge_nav_edge.

(** ** Documentation paths *)

Section doc_paths.
Import Setuptools NavTree.

Lemma split_on_app (c : Ascii.ascii) (a b : string) :
  split_on c (a +:+ String c b) = split_on c a ++ split_on c b.
Proof.
  induction a as [|x a IH].
  - rewrite append_nil_l. cbn [split_on]. by rewrite Ascii.eqb_refl.
  - rewrite append_cons. cbn [split_on]. rewrite IH.
    destruct (Ascii.eqb x c); [done|].
    pose proof (split_on_nonempty c a) as Hne.
    by destruct (split_on c a).
Qed.

Lemma join_snoc (sep x : string) (l : list string) :
  l ≠ [] → join sep (l ++ [x]) = join sep l +:+ sep +:+ x.
Proof.
  induction l as [|y l IH]; [done|]. intros _.
  destruct l as [|z l]; [done|].
  change ((y :: z :: l) ++ [x]) with (y :: ((z :: l) ++ [x])).
  rewrite join_cons by done. rewrite IH by done.
  rewrite (join_cons sep y (z :: l)) by done. by rewrite !app_assoc_str.
Qed.

(** X15.  The page of a configured root module [m] and the page of the
    module [m.index], when that one is not a configured root, are the
    same file: the path of a documentation page does not determine the
    module. *)
Theorem module_doc_path_collision (api_root_uri : string) (root_modules : gset string)
    (m : string) :
  m ∈ root_modules →
  m +:+ ".index" ∉ root_modules →
  _module_doc_path api_root_uri root_modules (m +:+ ".index")
  = _module_doc_path api_root_uri root_modules m.
Proof.
  intros Hroot Hnot. unfold _module_doc_path.
  rewrite (bool_decide_eq_true_2 (m ∈ root_modules)) by done.
  rewrite (bool_decide_eq_false_2 (m +:+ ".index" ∈ root_modules)) by done.
  change (m +:+ ".index") with (m +:+ String dot "index").
  rewrite split_on_app. change (split_on dot "index") with ["index"%string].
  rewrite join_snoc by apply split_on_nonempty.
  by rewrite !app_assoc_str.
Qed.

Lemma module_doc_path_collision_witness :
  _module_doc_path "reference" {[ "pkg"%string ]} ("pkg" +:+ ".index")
  = _module_doc_path "reference" {[ "pkg"%string ]} "pkg".
Proof.
  apply (module_doc_path_collision "reference" {[ "pkg"%string ]} "pkg").
  - by apply elem_of_singleton.
  - by intros [=]%elem_of_singleton.
Defined.

End doc_paths.

(** ** The order of the members on a page *)

Section member_order.
Import NavTree.

Lemma object_leb_total (x y : string * Z) :
  object_leb x y = true ∨ object_leb y x = true.
Proof.
  unfold object_leb. destruct (Z.compare_spec (- x.2) (- y.2)) as [Heq|Hlt|Hgt].
  - rewrite <- Heq, Z.compare_refl. apply String.leb_total.
  - by left.
  - right. by apply Z.compare_lt_iff in Hgt as ->.
Qed.

Lemma object_leb_listed (x y : string * Z) :
  object_leb x y = true → listed_before x y.
Proof.
  unfold object_leb, listed_before.
  destruct (Z.compare_spec (- x.2) (- y.2)) as [Heq|Hlt|Hgt]; [| |done].
  - intros Hle. right. split; [lia | by apply leb_le].
  - intros _. left. lia.
Qed.

(** X16.  The members of a page are listed by decreasing order value
    and, for the same order value, by increasing path; the listing is a
    rearrangement of the members. *)
Theorem sorted_object_paths_order (objects : list (string * Z)) :
  ∃ sorted,
    sorted_object_paths objects = sorted.*1
    ∧ sorted ≡ₚ objects
    ∧ Sorted listed_before sorted.
Proof.
  exists (stable_sort object_leb objects). split; [done|].
  split; [apply stable_sort_perm|].
  pose proof (stable_sort_sorted object_leb object_leb_total objects) as Hsorted.
  induction Hsorted as [|x l Hl IH Hhd]; constructor; [done|].
  destruct Hhd as [|y l' Hxy]; constructor. by apply object_leb_listed.
Qed.

End member_order.

(** ** The navigation tree *)

Section nav_tree.
Import Mkdocs Setuptools NavTree.

Lemma doc_path_add_parts (parts : list string) (d : string) (node : NavNode) :
  doc_path_of (add_parts parts d node) = doc_path_of node.
Proof. by destruct parts as [|p [|r rest]]. Qed.

Lemma dict_set_nonempty {K V : Type} `{EqDecision K} (k : K) (v : V) (d : list (K * V)) :
  dict_set k v d ≠ [].
Proof. destruct d as [|[k' v'] d]; cbn [dict_set]; [done|]. by destruct (decide (k = k')). Qed.

Lemma children_add_parts (parts : list string) (d : string) (node : NavNode) :
  parts ≠ [] → children_of (add_parts parts d node) ≠ [].
Proof.
  destruct parts as [|p [|r rest]]; [done| |]; intros _; apply dict_set_nonempty.
Qed.

Lemma find_node_app (parts more : list string) :
  ∀ node,
    find_node (parts ++ more) node
    = match find_node parts node with
      | Some found => find_node more found
      | None => None
      end.
Proof.
  induction parts as [|p parts IH]; intros node; [done|].
  cbn [app find_node]. by destruct (dict_get p (children_of node)).
Qed.

Lemma find_node_set_child (node child : NavNode) (p : string) (rest : list string) :
  find_node (p :: rest) (set_child node p child) = find_node rest child.
Proof. cbn [find_node set_child children_of]. by rewrite dict_get_set. Qed.

Lemma add_parts_cons (p r : string) (rest : list string) (d : string) (node : NavNode) :
  add_parts (p :: r :: rest) d node
  = set_child node p
      (add_parts (r :: rest) d
         (default (mkNavNode p None []) (dict_get p (children_of node)))).
Proof. reflexivity. Qed.

Lemma find_node_add_parts (parts : list string) (d : string) :
  ∀ node,
    parts ≠ [] →
    find_node parts (add_parts parts d node)
    = Some (mkNavNode (List.last parts EmptyString) (Some d) []).
Proof.
  induction parts as [|p rest IH]; intros node Hne; [done|].
  destruct rest as [|r rest].
  - cbn [add_parts]. by rewrite find_node_set_child.
  - rewrite add_parts_cons, find_node_set_child. by rewrite IH.
Qed.

Lemma doc_at_fresh (q : list string) (title : string) :
  doc_at q (mkNavNode title None []) = None.
Proof. by destruct q. Qed.

Lemma doc_at_add_parts_other (parts : list string) (d : string) :
  ∀ q node,
    ¬ parts `prefix_of` q →
    doc_at q (add_parts parts d node) = doc_at q node.
Proof.
  induction parts as [|p rest IH]; intros q node Hnot.
  - destruct Hnot. apply prefix_nil.
  - destruct q as [|x q].
    + unfold doc_at. cbn [find_node]. apply doc_path_add_parts.
    + destruct (decide (x = p)) as [->|Hx].
      * assert (¬ rest `prefix_of` q) as Hrest
          by (intros Hpre; apply Hnot; by apply prefix_cons).
        destruct rest as [|r rest]; [destruct Hrest; apply prefix_nil|].
        rewrite add_parts_cons. unfold doc_at at 1. rewrite find_node_set_child.
        fold (doc_at q (add_parts (r :: rest) d
                          (default (mkNavNode p None []) (dict_get p (children_of node))))).
        rewrite IH by done.
        unfold doc_at at 2. cbn [find_node].
        destruct (dict_get p (children_of node)) as [child|]; [done|].
        apply doc_at_fresh.
      * assert (∀ child,
                  doc_at (x :: q) (set_child node p child) = doc_at (x :: q) node) as Hset.
        { intros child. unfold doc_at. cbn [find_node set_child children_of].
          by rewrite dict_get_set_ne. }
        destruct rest as [|r rest]; apply Hset.
Qed.

(** X17.  After [add_module], the node at the path of the module is a
    fresh leaf holding the page: whatever was registered below that path
    before is gone.  The page recorded at any path that does not pass
    through the module is unchanged. *)
Theorem add_module_lookup (module_path docs_path : string) (node : NavNode) :
  find_node (split_on dot module_path) (add_module module_path docs_path node)
  = Some (mkNavNode (List.last (split_on dot module_path) EmptyString)
            (Some docs_path) [])
  ∧ (∀ x more,
       doc_at (split_on dot module_path ++ x :: more)
         (add_module module_path docs_path node) = None)
  ∧ (∀ q, ¬ split_on dot module_path `prefix_of` q →
          doc_at q (add_module module_path docs_path node) = doc_at q node).
Proof.
  unfold add_module.
  pose proof (find_node_add_parts (split_on dot module_path) docs_path node
                (split_on_nonempty dot module_path)) as Hfind.
  split; [done|]. split.
  - intros x more. unfold doc_at. by rewrite find_node_app, Hfind.
  - intros q Hq. by apply doc_at_add_parts_other.
Qed.

Lemma as_list_single_child (title name : string) (doc_path : option string)
    (child : NavNode) :
  as_list (mkNavNode title doc_path [(name, child)])
  = omap nav_entry
      [(name, (doc_path_of child, negb (bool_decide (children_of child = [])),
               as_list child))].
Proof. reflexivity. Qed.

Lemma as_list_add_parts (parts : list string) (d : string) :
  ∀ title doc_path,
    parts ≠ [] → d ≠ ""%string →
    as_list (add_parts parts d (mkNavNode title doc_path [])) = chain parts d.
Proof.
  induction parts as [|p rest IH]; intros title doc_path Hne Hd; [done|].
  apply truthy_nonempty in Hd as Htruthy.
  destruct rest as [|r rest].
  - change (add_parts [p] d (mkNavNode title doc_path []))
      with (mkNavNode title doc_path [(p, mkNavNode p (Some d) [])]).
    rewrite as_list_single_child. cbn [doc_path_of children_of].
    rewrite bool_decide_eq_true_2 by done.
    cbn [omap list_omap nav_entry negb]. by rewrite Htruthy.
  - change (add_parts (p :: r :: rest) d (mkNavNode title doc_path []))
      with (mkNavNode title doc_path
              [(p, add_parts (r :: rest) d (mkNavNode p None []))]).
    rewrite as_list_single_child.
    rewrite doc_path_add_parts. cbn [doc_path_of].
    rewrite bool_decide_eq_false_2 by by apply children_add_parts.
    rewrite IH by done. reflexivity.
Qed.

(** X18.  A tree that holds a single module with a non-empty page
    renders as a chain: one mapping per segment of the module path, each
    nested in the list of the one before, the last one carrying the
    page. *)
Theorem as_list_single_module (module_path docs_path title : string) :
  docs_path ≠ ""%string →
  as_list (add_module module_path docs_path (mkNavNode title None []))
  = chain (split_on dot module_path) docs_path.
Proof.
  intros Hd. unfold add_module.
  by apply as_list_add_parts; [apply split_on_nonempty|].
Qed.

Lemma as_list_single_module_witness :
  as_list (add_module "pkg.sub" "reference/pkg/sub.md" (mkNavNode "API Reference" None []))
  = chain (split_on dot "pkg.sub") "reference/pkg/sub.md".
Proof.
  apply (as_list_single_module "pkg.sub" "reference/pkg/sub.md" "API Reference").
  discriminate.
Defined.

End nav_tree.

(** ** What is generated *)

Section generated_units.
Import Setuptools.
Variable MAGIC_COMMENT : string.

Lemma prefix_app_r (a b c : string) :
  String.prefix a b = true → String.prefix a (b +:+ c) = true.
Proof.
  revert b. induction a as [|x a IH]; intros b.
  - intros _. by destruct (b +:+ c).
  - destruct b as [|y b]; [done|]. rewrite append_cons. cbn [String.prefix].
    destruct (Ascii.ascii_dec x y); [apply IH | done].
Qed.

Lemma prefix_refl (a : string) : String.prefix a a = true.
Proof. rewrite <- (append_nil_r a) at 2. apply prefix_app. Qed.

Lemma emit_aliases_prefix_kept (target : string) (l : list alias) :
  ∀ imported declared content text,
    String.prefix MAGIC_COMMENT content = true →
    emit_aliases target l imported declared content = Ok text →
    String.prefix MAGIC_COMMENT text = true.
Proof.
  induction l as [|a l IH]; intros imported declared content text Hprefix.
  - by intros [= <-].
  - cbn [emit_aliases]. destruct (declared !! alias_name a); [done|].
    apply IH. destruct (bool_decide (from_module a ∈ imported));
      repeat apply prefix_app_r; done.
Qed.

Lemma name_module_file (root : Path) (target : string) :
  name (module_file root target) = "__init__.py"%string.
Proof. unfold module_file, name, joinpath. cbn [fst snd]. apply last_last. Qed.

Lemma dict_set_Forall {K V : Type} `{EqDecision K} (P : K * V → Prop)
    (k : K) (v : V) (d : list (K * V)) :
  P (k, v) → Forall P d → Forall P (dict_set k v d).
Proof.
  intros Hkv. induction 1 as [|[k' v'] d Hx Hd IH]; cbn [dict_set].
  - by repeat constructor.
  - destruct (decide (k = k')); constructor; done.
Qed.

Lemma managed_loop_units (root : Path) (mods pkgs : gset string)
    (items : list (string * list alias)) :
  ∀ managed result,
    Forall (λ x : Path * string,
              name x.1 = "__init__.py"%string
              ∧ String.prefix MAGIC_COMMENT x.2 = true) managed →
    managed_loop MAGIC_COMMENT root mods pkgs items managed = Ok result →
    Forall (λ x : Path * string,
              name x.1 = "__init__.py"%string
              ∧ String.prefix MAGIC_COMMENT x.2 = true) result.
Proof.
  induction items as [|[t l] items IH]; intros managed result Hmanaged.
  - by intros [= <-].
  - cbn [managed_loop]. destruct (check_target mods pkgs t); [|done].
    destruct (emit_aliases t _ ∅ ∅ MAGIC_COMMENT) as [text|e] eqn:Hemit; [|done].
    apply IH. apply dict_set_Forall; [|done]. split.
    + apply name_module_file.
    + eapply emit_aliases_prefix_kept; [apply prefix_refl | exact Hemit].
Qed.

(** X19.  Every unit that alias synthesis returns is a file named
    [__init__.py] whose content starts with the magic marker: the files
    that the next discovery removes and that installation may
    overwrite. *)
Theorem build_managed_units (root : Path) (batch : list (string * list alias))
    (files : list Path) (managed : list (Path * string)) :
  build_managed MAGIC_COMMENT root batch files = Ok managed →
  Forall (λ x : Path * string,
            name x.1 = "__init__.py"%string
            ∧ String.prefix MAGIC_COMMENT x.2 = true) managed.
Proof. unfold build_managed. by apply managed_loop_units. Qed.

End generated_units.

Section generated_units_runs.
Import Setuptools Example.

Lemma build_managed_units_witness :
  Forall (λ x : Path * string,
            name x.1 = "__init__.py"%string ∧ String.prefix magic x.2 = true)
    [((false, ["api"; "__init__.py"]),
      magic +:+ "import src.a" +:+ nl +:+ "f = src.a.f" +:+ nl)].
Proof.
  apply (build_managed_units magic here [("api"%string, [entry "api" "src.a" "f" "f"])]
           sources).
  by_computation.
Defined.

End generated_units_runs.

(** ** Package markers *)

Section package_markers.
Import Setuptools Discovery.
Variable MAGIC_COMMENT : string.
Variable griffe_aliases : Path → FS → list alias.

Lemma name_joinpath_init (d : Path) :
  name (joinpath d (false, ["__init__.py"])) = "__init__.py"%string.
Proof. unfold name, joinpath. cbn [fst snd]. apply last_last. Qed.

Lemma write_text_ok (p : Path) (content : string) (fs fs' : FS) :
  write_text p content fs = (Ok (), fs') → fs' = <[p := File content]> fs.
Proof. unfold write_text. repeat case_match; by intros [= <-]. Qed.

Lemma mkdir_ok (p : Path) (fs fs' : FS) :
  mkdir p fs = (Ok (), fs') → fs !! p = None ∧ fs' = <[p := Dir]> fs.
Proof.
  unfold mkdir. destruct (exists_ fs p) eqn:Hex; [done|].
  apply exists_false_lookup in Hex. repeat case_match; by intros [= <-].
Qed.

Lemma write_text_marked (fs0 fs fs' : FS) (p : Path) (content : string) :
  marked MAGIC_COMMENT fs0 fs →
  String.prefix MAGIC_COMMENT content = true ∨ name p ≠ "__init__.py"%string →
  write_text p content fs = (Ok (), fs') →
  marked MAGIC_COMMENT fs0 fs'.
Proof.
  intros Hmarked Hcontent ->%write_text_ok d Hnew Hdir.
  destruct (decide (d = p)) as [->|Hd]; [by rewrite lookup_insert_eq in Hdir|].
  rewrite lookup_insert_ne in Hdir by done.
  destruct (Hmarked d Hnew Hdir) as (text & Htext & Hprefix).
  destruct (decide (joinpath d (false, ["__init__.py"]) = p)) as [<-|Hp].
  - exists content. rewrite lookup_insert_eq. split; [done|].
    destruct Hcontent as [|Hname]; [done|]. by rewrite name_joinpath_init in Hname.
  - exists text. by rewrite lookup_insert_ne.
Qed.

Lemma mkdir_marked (fs0 fs fs1 fs2 : FS) (d : Path) :
  marked MAGIC_COMMENT fs0 fs →
  mkdir d fs = (Ok (), fs1) →
  write_text (joinpath d (false, ["__init__.py"])) MAGIC_COMMENT fs1 = (Ok (), fs2) →
  marked MAGIC_COMMENT fs0 fs2.
Proof.
  intros Hmarked [Hfree ->]%mkdir_ok ->%write_text_ok d' Hnew Hdir.
  destruct (decide (joinpath d' (false, ["__init__.py"])
                    = joinpath d (false, ["__init__.py"]))) as [->|Hinit].
  { exists MAGIC_COMMENT. rewrite lookup_insert_eq. split; [done | apply prefix_refl]. }
  destruct (decide (d' = joinpath d (false, ["__init__.py"]))) as [->|Hd'];
    [by rewrite lookup_insert_eq in Hdir|].
  rewrite lookup_insert_ne in Hdir by done.
  destruct (decide (d' = d)) as [->|Hd]; [done|].
  rewrite lookup_insert_ne in Hdir by done.
  destruct (Hmarked d' Hnew Hdir) as (text & Htext & Hprefix).
  exists text. split; [|done].
  rewrite lookup_insert_ne by done. rewrite lookup_insert_ne; [done|].
  intros Heq. congruence.
Qed.

Lemma create_dirs_marked (fs0 : FS) (destination_root : Path) (dirs : list Path) :
  ∀ entries fs entries' fs',
    marked MAGIC_COMMENT fs0 fs →
    create_dirs MAGIC_COMMENT destination_root dirs entries fs = (Ok entries', fs') →
    marked MAGIC_COMMENT fs0 fs'.
Proof.
  induction dirs as [|d dirs IH]; intros entries fs entries' fs' Hmarked.
  - by intros [= _ <-].
  - cbn [create_dirs].
    destruct (mkdir d fs) as [[[]|e] fs1] eqn:Hmkdir; [|done].
    destruct (write_text _ MAGIC_COMMENT fs1) as [[[]|e] fs2] eqn:Hwrite; [|done].
    apply IH. by eapply mkdir_marked.
Qed.

Lemma materialize_marked (fs0 : FS) (source_root destination_root : Path)
    (items : list (Path * string)) :
  ∀ entries fs entries' fs',
    Forall (λ x : Path * string, String.prefix MAGIC_COMMENT x.2 = true) items →
    marked MAGIC_COMMENT fs0 fs →
    materialize MAGIC_COMMENT source_root destination_root items entries fs
    = (Ok entries', fs') →
    marked MAGIC_COMMENT fs0 fs'.
Proof.
  induction items as [|[filepath content] items IH];
    intros entries fs entries' fs' Hitems Hmarked.
  - by intros [= _ <-].
  - apply Forall_cons in Hitems as [Hcontent Hitems]. cbn [materialize].
    destruct (relative_to filepath source_root) as [rel|e]; [|done].
    destruct (create_dirs _ _ _ entries fs) as [[entries1|e] fs1] eqn:Hdirs; [|done].
    destruct (write_text _ content fs1) as [[[]|e] fs2] eqn:Hwrite; [|done].
    apply IH; [done|].
    eapply write_text_marked; [|by left|exact Hwrite].
    by eapply create_dirs_marked.
Qed.

Lemma write_gitignore_marked (fs0 fs fs' : FS) (destination_root : Path)
    (entries : list string) :
  marked MAGIC_COMMENT fs0 fs →
  write_gitignore destination_root entries fs = (Ok (), fs') →
  marked MAGIC_COMMENT fs0 fs'.
Proof.
  intros Hmarked. unfold write_gitignore.
  destruct entries as [|x entries]; [by intros [= <-]|].
  assert (name (joinpath destination_root (false, [".gitignore"]))
          ≠ "__init__.py"%string) as Hname.
  { unfold name, joinpath. cbn [fst snd]. by rewrite last_last. }
  destruct (exists_ fs _).
  - destruct (read_text _ fs) as [[text|e] fs1] eqn:Hread; [|done].
    apply read_text_state in Hread as ->.
    intros Hwrite. eapply write_text_marked; [done | by right | exact Hwrite].
  - intros Hwrite. eapply write_text_marked; [done | by right | exact Hwrite].
Qed.

(** X20.  After a successful run of [generate_aliases], every directory
    that was not there when the discovery step ended holds an
    [__init__.py] that starts with the magic marker. *)
Theorem generate_aliases_marks_directories (source_root destination_root : Path)
    (fs fs' : FS) (managed : list (Path * string)) :
  generate_aliases MAGIC_COMMENT griffe_aliases source_root destination_root fs
  = (Ok managed, fs') →
  marked MAGIC_COMMENT
    (collect_managed MAGIC_COMMENT griffe_aliases source_root fs).2 fs'.
Proof.
  unfold generate_aliases.
  destruct (collect_managed _ _ source_root fs) as [[managed0|e] fs0] eqn:Hcollect;
    [|done].
  destruct (materialize _ _ _ managed0 [] fs0) as [[entries|e] fs1] eqn:Hmat; [|done].
  destruct (write_gitignore _ entries fs1) as [[[]|e] fs2] eqn:Hignore; [|done].
  intros [= <- <-]. cbn [snd].
  eapply write_gitignore_marked; [|exact Hignore].
  eapply materialize_marked; [| |exact Hmat].
  - unfold collect_managed in Hcollect.
    destruct (collect_aliases _ _ source_root fs) as [[[batch files]|e] fs3]; [|done].
    injection Hcollect as Hbuild _.
    eapply Forall_impl; [by eapply (managed_loop_units MAGIC_COMMENT)|].
    by intros x [_ Hx].
  - intros d Hnone Hdir. congruence.
Qed.

End package_markers.

Section package_markers_runs.
Import Setuptools Discovery Example.

Lemma generate_aliases_marks_directories_witness :
  marked magic (collect_managed magic scan_one here tree).2
    (generate_aliases magic scan_one here (false, ["out"]) tree).2.
Proof.
  apply (generate_aliases_marks_directories magic scan_one here (false, ["out"]) tree
           (generate_aliases magic scan_one here (false, ["out"]) tree).2
           [((false, ["api"; "__init__.py"]),
             magic +:+ "import src.a" +:+ nl +:+ "f = src.a.f" +:+ nl)]).
  by_computation.
Defined.

End package_markers_runs.
